(** * Assistant_Main_Code.py: a console chat client

    A shallow embedding of [src/Assistant_Main_Code.py] and the properties
    its specification states about it.

    Python values are modelled as the interpreter has them: a [str] is a
    sequence of Unicode code points, an exception is a value that a call
    may produce instead of its result, and the effects of the program
    (console output, SDK and network calls) are recorded in a trace. *)

From Stdlib Require Import List NArith Bool Lia.
From Stdlib Require Ascii String.
Import ListNotations String.StringSyntax.
Delimit Scope string_scope with string.

(** ** Python strings *)

Module Py.

(** A code point, and a [str] as the sequence of its code points. *)
Definition char := N.
Definition str := list char.

(** An ASCII literal of the source, as a [str]. *)
Definition lit (s : String.string) : str :=
  map Ascii.N_of_ascii (String.list_ascii_of_string s).
Arguments lit s%_string.

Definition nl : str := [10%N].

Local Open Scope N_scope.

(** [a == b] on strings. *)
Fixpoint str_eqb (a b : str) : bool :=
  match a, b with
  | [], [] => true
  | c :: a', d :: b' => (c =? d) && str_eqb a' b'
  | _, _ => false
  end.

(** [x in xs] for a list (or a set literal) of strings. *)
Definition str_in (x : str) (xs : list str) : bool := existsb (str_eqb x) xs.

(** [s.startswith(p)]. *)
Fixpoint starts_with (p s : str) : bool :=
  match p, s with
  | [], _ => true
  | c :: p', d :: s' => (c =? d) && starts_with p' s'
  | _ :: _, [] => false
  end.

(** The left-to-right scan of [str.replace] for a non-empty [old]: at a
    position where [old] starts, [new] is emitted and the scan resumes
    after the match ([skip] counts the code points of the match still to
    pass over); elsewhere the code point is copied. *)
Fixpoint replace_scan (old new : str) (skip : nat) (s : str) : str :=
  match s with
  | [] => []
  | c :: s' =>
      match skip with
      | S k => replace_scan old new k s'
      | O =>
          if starts_with old s
          then new ++ replace_scan old new (length old - 1) s'
          else c :: replace_scan old new 0 s'
      end
  end.

(** [s.replace(old, new)]; an empty [old] matches before every code point
    and at the end. *)
Definition str_replace (s old new : str) : str :=
  match old with
  | [] => new ++ flat_map (fun c => c :: new) s
  | _ :: _ => replace_scan old new 0 s
  end.

(** The line boundaries of [str.splitlines]: LF, VT, FF, CR, FS, GS, RS,
    NEL, LINE SEPARATOR and PARAGRAPH SEPARATOR (CR LF counts as one). *)
Definition is_linebreak (c : char) : bool :=
  (c =? 10) || (c =? 11) || (c =? 12) || (c =? 13) || (c =? 28) ||
  (c =? 29) || (c =? 30) || (c =? 133) || (c =? 8232) || (c =? 8233).

(** [s.splitlines(keepends=True)], scanning [s] with the line read so far
    in [cur]: a boundary closes the line and stays in it, and a last line
    without a boundary is kept when it is not empty. *)
Fixpoint splitlines_from (cur s : str) : list str :=
  match s with
  | [] => match cur with [] => [] | _ :: _ => [cur] end
  | c :: s' =>
      if is_linebreak c then
        match s' with
        | d :: s'' =>
            if (c =? 13) && (d =? 10)
            then (cur ++ [c; d]) :: splitlines_from [] s''
            else (cur ++ [c]) :: splitlines_from [] s'
        | [] => (cur ++ [c]) :: splitlines_from [] s'
        end
      else splitlines_from (cur ++ [c]) s'
  end.

Definition splitlines_keepends (s : str) : list str := splitlines_from [] s.

(** [sep.join(xs)]. *)
Fixpoint join (sep : str) (xs : list str) : str :=
  match xs with
  | [] => []
  | [x] => x
  | x :: xs' => x ++ sep ++ join sep xs'
  end.

(** [s * n]. *)
Fixpoint repeat_str (s : str) (n : nat) : str :=
  match n with
  | O => []
  | S k => s ++ repeat_str s k
  end.

(** [c.isspace()]: the code points [str.strip()] removes. *)
Definition is_space (c : char) : bool :=
  ((9 <=? c) && (c <=? 13)) || ((28 <=? c) && (c <=? 32)) ||
  (c =? 133) || (c =? 160) || (c =? 5760) ||
  ((8192 <=? c) && (c <=? 8202)) || (c =? 8232) || (c =? 8233) ||
  (c =? 8239) || (c =? 8287) || (c =? 12288).

Fixpoint lstrip (s : str) : str :=
  match s with
  | [] => []
  | c :: s' => if is_space c then lstrip s' else s
  end.

Definition rstrip (s : str) : str := rev (lstrip (rev s)).

(** [s.strip()]. *)
Definition strip (s : str) : str := rstrip (lstrip s).

(** [textwrap.indent(text, prefix, predicate)]: the lines of [text], line
    ends kept, each one that satisfies [predicate] with [prefix] before it,
    joined again. *)
Definition indent (text prefix : str) (predicate : str -> bool) : str :=
  concat (map (fun line => if predicate line then prefix ++ line else line)
              (splitlines_keepends text)).

End Py.

Import Py.

(** ** The output formatter *)

(** The bullet glyph U+2022 of the source's literal. *)
Definition bullet : char := 8226%N.

(** What a bullet becomes: two spaces and an asterisk. *)
Definition bullet_marker : str := lit "  *".

(** The quoting marker put before every line. *)
Definition quote_marker : str := lit "> ".

(** [to_markdown(text)]. *)
Definition to_markdown (text : str) : str :=
  let text := str_replace text [bullet] bullet_marker in
  indent text quote_marker (fun _ => true).


(** ** Exceptions, results and effects *)

(** The exceptions the program can meet.  [KeyboardInterrupt] and
    [SystemExit] derive from [BaseException] only; [OtherError] stands for
    any other subclass of [Exception] (an SDK or network error). *)
Inductive exn : Type :=
| KeyboardInterrupt
| SystemExit (code : N)
| EOFError
| RuntimeError (msg : str)
| OtherError (msg : str).

(** [isinstance(e, Exception)]. *)
Definition is_Exception (e : exn) : bool :=
  match e with
  | KeyboardInterrupt | SystemExit _ => false
  | EOFError | RuntimeError _ | OtherError _ => true
  end.

(** [isinstance(e, RuntimeError)]. *)
Definition is_RuntimeError (e : exn) : bool :=
  match e with
  | RuntimeError _ => true
  | _ => false
  end.

(** [isinstance(e, (KeyboardInterrupt, EOFError))]. *)
Definition is_interrupt_or_eof (e : exn) : bool :=
  match e with
  | KeyboardInterrupt | EOFError => true
  | _ => false
  end.

(** [str(e)], as an f-string formats the exception. *)
Definition exn_str (e : exn) : str :=
  match e with
  | RuntimeError msg | OtherError msg => msg
  | KeyboardInterrupt | EOFError | SystemExit _ => []
  end.

(** What a call gives: its value, or the exception it raised. *)
Inductive res (A : Type) : Type :=
| Val (a : A)
| Exc (e : exn).
Arguments Val {A} a.
Arguments Exc {A} e.

(** What the program does to the outside, in order. *)
Inductive event : Type :=
| Print (s : str)              (* print(s) *)
| PrintErr (s : str)           (* print(s, file=sys.stderr) *)
| Prompt (s : str)             (* the prompt input(s) writes *)
| Configure (api_key : str)    (* genai.configure(api_key=...) *)
| ListModels                   (* genai.list_models(): a network call *)
| Send (text : str).           (* chat.send_message(text): a network call *)

(** A computation: the events it emitted and how it ended. *)
Definition io (A : Type) : Type := (list event * res A)%type.

Definition ret {A} (a : A) : io A := ([], Val a).
Definition raise {A} (e : exn) : io A := ([], Exc e).
Definition emit (ev : event) : io unit := ([ev], Val tt).

Definition bind {A B} (m : io A) (k : A -> io B) : io B :=
  match m with
  | (t, Val a) => let (t', r) := k a in (t ++ t', r)
  | (t, Exc e) => (t, Exc e)
  end.

(** [try: m except <catches> as ex: handler(ex)]. *)
Definition try_except {A} (m : io A) (catches : exn -> bool)
    (handler : exn -> io A) : io A :=
  match m with
  | (t, Exc e) =>
      if catches e then let (t', r) := handler e in (t ++ t', r)
      else (t, Exc e)
  | (t, Val a) => (t, Val a)
  end.

Notation "x <- m ;; k" := (bind m (fun x => k))
  (at level 61, m at next level, right associativity).
Notation "m ;; k" := (bind m (fun _ => k))
  (at level 61, right associativity).

(** [sys.exit(code)]. *)
Definition sys_exit {A} (code : N) : io A := raise (SystemExit code).

(** How the process ends once [main] has ended: a normal return is exit
    code 0, [SystemExit] carries its code, and any other exception leaves
    [main] uncaught. *)
Inductive status : Type :=
| Exited (code : N)
| Uncaught (e : exn).

Definition exit_status (r : res unit) : status :=
  match r with
  | Val _ => Exited 0
  | Exc (SystemExit code) => Exited code
  | Exc e => Uncaught e
  end.

(** The network calls among the events. *)
Definition is_network (ev : event) : bool :=
  match ev with
  | ListModels | Send _ => true
  | _ => false
  end.

(** The texts sent, in order. *)
Fixpoint sends (t : list event) : list str :=
  match t with
  | [] => []
  | Send q :: t' => q :: sends t'
  | _ :: t' => sends t'
  end.

(** ** The credential loader *)

Definition no_api_key_message : str :=
  lit "GOOGLE_API_KEY not set. Set it in your environment or use a .env file.".

(** [configure_genai()]; [api_key] is [os.environ.get("GOOGLE_API_KEY")],
    [None] when the variable is absent. *)
Definition configure_genai (api_key : option str) : io unit :=
  match api_key with
  | None | Some [] => raise (RuntimeError no_api_key_message)
  | Some ((_ :: _) as key) => emit (Configure key)
  end.

(** ** The model resolver *)

Definition default_preferred : str := lit "gemini-flash-latest".

Definition fallback_candidates : list str :=
  [lit "gemini-2.5-flash"; lit "gemini-2.5-flash-lite"; lit "gemini-flash-latest"].

(** [for candidate in candidates: if candidate in available: return candidate]. *)
Fixpoint scan_candidates (candidates available : list str) : option str :=
  match candidates with
  | [] => None
  | candidate :: rest =>
      if str_in candidate available then Some candidate
      else scan_candidates rest available
  end.

Definition not_available_message (preferred : str) (available : list str) : str :=
  (lit "Preferred model '" ++ preferred
     ++ lit "' not available. Models you can access:" ++ nl)
  ++ join nl available.

(** [choose_model(preferred)]; [listing] is what iterating
    [genai.list_models()] gives: the names, or the exception raised. *)
Definition choose_model (listing : res (list str)) (preferred : str) : io str :=
  available <-
    try_except (emit ListModels ;; (([], listing) : io (list str)))
      is_Exception
      (fun e => raise (RuntimeError (lit "Failed to list models: " ++ exn_str e))) ;;
  if str_in preferred available then ret preferred
  else
    match scan_candidates fallback_candidates available with
    | Some candidate => ret candidate
    | None => raise (RuntimeError (not_available_message preferred available))
    end.

(** ** The interpreter's case mapping and the provider's SDK *)

Definition is_ascii (c : char) : bool := (c <? 128)%N.

(** Lower case of an ASCII code point: [A]-[Z] move to [a]-[z]. *)
Definition ascii_lower (c : char) : char :=
  if ((65 <=? c) && (c <=? 90))%N then (c + 32)%N else c.

(** [str.lower()] is the interpreter's Unicode lower-casing.  Its table is
    not part of the program; what the program relies on is its value on
    ASCII text. *)
Class CaseMapping : Type := {
  str_lower : str -> str;
  str_lower_ascii :
    forall s, forallb is_ascii s = true -> str_lower s = map ascii_lower s
}.

(** A reply of the provider; reading [response.text] can raise. *)
Record Response : Type := { text : res str }.

(** The part of [google.generativeai] the program calls. *)
Class GenAI : Type := {
  Model : Type;
  ChatSession : Type;
  (* genai.GenerativeModel(model_name, system_instruction=...) *)
  GenerativeModel : str -> str -> Model;
  (* model.start_chat(history=[]) *)
  start_chat : Model -> ChatSession;
  (* chat.send_message(text): the reply or the exception raised, and the
     session as the call leaves it *)
  send_message : ChatSession -> str -> res Response * ChatSession
}.

(** ** The interaction loop *)

Definition system_instruction : str :=
  lit "You are an expert AI assistant specializing in Indian law. "
  ++ lit "Explain complex legal topics in a clear, simple, and detailed manner "
  ++ lit "for a general audience.".

Definition scales : str := [9878%N; 65039%N].
Definition waving_hand : str := [128075%N].

Definition banner : str := scales ++ lit "  Legal AI Assistant " ++ scales.
Definition usage_line : str :=
  lit "Ask me any question about Indian law. Type 'exit' or 'quit' to end.".
Definition question_prompt : str := lit "Your Question: ".
Definition goodbye : str := lit "Goodbye! " ++ waving_hand.
Definition answer_header : str := nl ++ lit "--- Answer ---".
Definition answer_footer : str := lit "---------------" ++ nl.
Definition send_error_prefix : str :=
  lit "An error occurred when sending the message: ".

Section Loop.

Context {unicode : CaseMapping} {sdk : GenAI}.

(** How one pass through the body of [while True] ends. *)
Inductive control : Type :=
| Continue (chat : ChatSession)    (* back to the top of the loop *)
| Break                            (* break *)
| Propagate (e : exn).             (* an exception leaves the loop *)

(** The [try] block around the send: print the answer, or report an
    [Exception] on stderr; anything else propagates. *)
Definition dispatch (chat : ChatSession) (user_question : str)
    : list event * control :=
  let (r, chat') := send_message chat user_question in
  match r with
  | Exc e =>
      if is_Exception e
      then ([Send user_question; PrintErr (send_error_prefix ++ exn_str e)],
            Continue chat')
      else ([Send user_question], Propagate e)
  | Val response =>
      match text response with
      | Exc e =>
          if is_Exception e
          then ([Send user_question; Print answer_header;
                 PrintErr (send_error_prefix ++ exn_str e)], Continue chat')
          else ([Send user_question; Print answer_header], Propagate e)
      | Val reply =>
          ([Send user_question; Print answer_header;
            Print (to_markdown reply); Print answer_footer], Continue chat')
      end
  end.

(** One pass through the loop body; [line] is what [input(...)] gives. *)
Definition loop_body (chat : ChatSession) (line : res str)
    : list event * control :=
  match line with
  | Exc e =>
      if is_interrupt_or_eof e
      then ([Prompt question_prompt; Print (nl ++ goodbye)], Break)
      else ([Prompt question_prompt], Propagate e)
  | Val l =>
      let user_question := strip l in
      match user_question with
      | [] => ([Prompt question_prompt], Continue chat)
      | _ :: _ =>
          if str_in (str_lower user_question) [lit "quit"; lit "exit"]
          then ([Prompt question_prompt; Print goodbye], Break)
          else
            let (t, c) := dispatch chat user_question in
            (Prompt question_prompt :: t, c)
      end
  end.

(** [while True], over the outcomes of the successive [input] calls; when
    they are used up standard input is at its end and [input] raises
    [EOFError]. *)
Fixpoint while_true (chat : ChatSession) (inputs : list (res str)) : io unit :=
  match inputs with
  | [] =>
      match loop_body chat (Exc EOFError) with
      | (t, Propagate e) => (t, Exc e)
      | (t, _) => (t, Val tt)
      end
  | line :: rest =>
      match loop_body chat line with
      | (t, Continue chat') => let (t', r) := while_true chat' rest in (t ++ t', r)
      | (t, Break) => (t, Val tt)
      | (t, Propagate e) => (t, Exc e)
      end
  end.

(** [run_chat_loop(model_name)]. *)
Definition run_chat_loop (model_name : str) (inputs : list (res str)) : io unit :=
  let model := GenerativeModel model_name system_instruction in
  emit (Print banner) ;;
  emit (Print usage_line) ;;
  emit (Print (repeat_str (lit "-") 40)) ;;
  let chat := start_chat model in
  while_true chat inputs.

(** [main()]: the environment's credential, the provider's listing and the
    console input are what the outside gives the process. *)
Definition main (api_key : option str) (listing : res (list str))
    (inputs : list (res str)) : io unit :=
  try_except (configure_genai api_key) is_RuntimeError
    (fun ex =>
       emit (PrintErr (lit "Configuration error: " ++ exn_str ex)) ;;
       sys_exit 1) ;;
  model_name <-
    try_except (choose_model listing (lit "gemini-flash-latest")) is_RuntimeError
      (fun ex =>
         emit (PrintErr (lit "Model selection error: " ++ exn_str ex)) ;;
         sys_exit 1) ;;
  try_except (run_chat_loop model_name inputs) is_Exception
    (fun ex =>
       emit (PrintErr (lit "Unexpected error: " ++ exn_str ex)) ;;
       sys_exit 1).

(** The test of the loop for an exit command. *)
Definition is_exit_command (q : str) : bool :=
  str_in (str_lower q) [lit "quit"; lit "exit"].

(** The loop over [inputs] alone, up to the point where it asks for the
    next one: the events so far, and whether the loop is still running
    and with which session. *)
Fixpoint feed (chat : ChatSession) (inputs : list (res str))
    : list event * control :=
  match inputs with
  | [] => ([], Continue chat)
  | line :: rest =>
      match loop_body chat line with
      | (t, Continue chat') => let (t', c) := feed chat' rest in (t ++ t', c)
      | stopped => stopped
      end
  end.

(** The texts up to the first exit command. *)
Fixpoint before_exit (qs : list str) : list str :=
  match qs with
  | [] => []
  | q :: rest => if is_exit_command q then [] else q :: before_exit rest
  end.

(** What a sequence of typed lines asks: the lines stripped, up to the
    first exit command, the empty ones left out. *)
Definition questions (lines : list str) : list str :=
  filter (fun q => negb (str_eqb q [])) (before_exit (map strip lines)).

(** The session after the texts [qs] were sent on it one after the other,
    whether answered or not. *)
Definition session_after (chat : ChatSession) (qs : list str) : ChatSession :=
  fold_left (fun c q => snd (send_message c q)) qs chat.

End Loop.

(** *** A scripted provider and an ASCII case mapping, to run the model *)

(** Lower-casing that knows ASCII only. *)
#[export] Instance ascii_case_mapping : CaseMapping := {
  str_lower := map ascii_lower;
  str_lower_ascii := fun s _ => eq_refl
}.

(** A provider whose session is the list of texts it accepted: it echoes
    a text, except that it fails on ["boom"], is interrupted on ["hang"]
    and answers ["mute"] with a reply that has no text. *)
Definition echo_send (history : list str) (q : str)
    : res Response * list str :=
  if str_eqb q (lit "boom") then (Exc (OtherError (lit "503 unavailable")), history)
  else if str_eqb q (lit "hang") then (Exc KeyboardInterrupt, history)
  else if str_eqb q (lit "mute")
  then (Val {| text := Exc (OtherError (lit "no text")) |}, history ++ [q])
  else (Val {| text := Val q |}, history ++ [q]).

Definition echo_sdk : GenAI := {|
  Model := str * str;
  ChatSession := list str;
  GenerativeModel := fun name instruction => (name, instruction);
  start_chat := fun _ => [];
  send_message := echo_send
|}.

(** * The vocabulary of the specification *)

(** ** The formatter *)

(** In the words of the specification: every bullet glyph becomes
    [marker], and every other code point stays where it is. *)
Definition replace_bullets (marker : str) (t : str) : str :=
  flat_map (fun c => if (c =? bullet)%N then marker else [c]) t.

(** A text without line boundary. *)
Definition breakless (s : str) : bool := forallb (fun c => negb (is_linebreak c)) s.

(** A line boundary as [splitlines] closes a line with it. *)
Definition is_terminator (t : str) : Prop :=
  (exists b, t = [b] /\ is_linebreak b = true) \/ t = [13; 10]%N.

(** The shape of what [splitlines(keepends=True)] returns: every line is a
    text without boundary and then one boundary; the last one may instead
    be a non-empty text without boundary. *)
Inductive well_split : list str -> Prop :=
| ws_nil : well_split []
| ws_open (body : str) :
    body <> [] -> breakless body = true -> well_split [body]
| ws_closed (body t : str) (ls : list str) :
    breakless body = true -> is_terminator t -> well_split ls ->
    well_split ((body ++ t) :: ls).

(** C8 as the specification words it, with a marker of two code points
    (a space and an asterisk): the lines the formatter would return. *)
Definition lines_as_specified (t : str) : list str :=
  map (app quote_marker) (splitlines_keepends (replace_bullets (lit " *") t)).

(** ** The model resolver *)

(** [name] occurs in [msg]. *)
Definition contains (msg name : str) : Prop :=
  exists before after, msg = before ++ name ++ after.

(** [c] is the first member of [candidates] that is available. *)
Definition first_available (candidates available : list str) (c : str) : Prop :=
  exists before after,
    candidates = before ++ c :: after
    /\ In c available
    /\ forall x, In x before -> ~ In x available.

(** C5 as the specification words it: no member of the fallback list
    equals [preferred]. *)
Definition fallback_distinct_from (preferred : str) : Prop :=
  forall c, In c fallback_candidates -> c <> preferred.

(** ** The interaction loop and the process *)

(** Equal up to the case of ASCII letters. *)
Definition ci_eqb (a b : str) : bool :=
  str_eqb (map ascii_lower a) (map ascii_lower b).

(** What [run_chat_loop] prints before the first prompt. *)
Definition header : list event :=
  [Print banner; Print usage_line; Print (repeat_str (lit "-") 40)].

(** [print] of a farewell message. *)
Definition is_farewell (ev : event) : bool :=
  match ev with
  | Print s => str_eqb s goodbye || str_eqb s (nl ++ goodbye)
  | _ => false
  end.

(** The run in which the provider is interrupted during the first send. *)
Definition interrupted_run : io unit :=
  @main ascii_case_mapping echo_sdk (Some (lit "k"))
    (Val [lit "gemini-flash-latest"]) [Val (lit "hang"); Val (lit "quit")].

(** The run in which [input] fails with an error of its own after one
    question. *)
Definition broken_input_run : io unit :=
  @main ascii_case_mapping echo_sdk (Some (lit "k"))
    (Val [lit "gemini-flash-latest"])
    [Val (lit "hi"); Exc (OtherError (lit "bad byte")); Val (lit "more")].

(** * Properties *)

#[local] Arguments N.eqb : simpl never.
#[local] Arguments N.leb : simpl never.
#[local] Arguments N.ltb : simpl never.

(** ** Strings *)

Lemma str_eqb_eq (a b : str) : str_eqb a b = true <-> a = b.
Proof.
  revert b; induction a as [|c a IH]; intros [|d b]; simpl; split;
    try congruence; try reflexivity.
  - intros H. apply andb_prop in H as [Hc Hab].
    apply N.eqb_eq in Hc. apply IH in Hab. congruence.
  - intros H. injection H as -> ->.
    rewrite N.eqb_refl. simpl. now apply IH.
Qed.

Lemma str_eqb_refl (a : str) : str_eqb a a = true.
Proof. now apply str_eqb_eq. Qed.

Lemma str_in_In (x : str) (xs : list str) : str_in x xs = true <-> In x xs.
Proof.
  unfold str_in. rewrite existsb_exists. split.
  - intros (y & Hy & E). apply str_eqb_eq in E. now subst.
  - intros H. exists x. split; [assumption | apply str_eqb_refl].
Qed.

Lemma str_in_not_In (x : str) (xs : list str) : str_in x xs = false <-> ~ In x xs.
Proof.
  rewrite <- str_in_In. destruct (str_in x xs); split; congruence.
Qed.

(** ** The formatter *)

Lemma replace_scan_bullet (new s : str) :
  replace_scan [bullet] new 0 s = replace_bullets new s.
Proof.
  induction s as [|c s IH]; [reflexivity|].
  cbn [replace_scan starts_with length Nat.sub replace_bullets flat_map].
  rewrite andb_true_r, IH, (N.eqb_sym bullet c).
  destruct (c =? bullet)%N; reflexivity.
Qed.

Lemma str_replace_bullet (new s : str) :
  str_replace s [bullet] new = replace_bullets new s.
Proof. apply replace_scan_bullet. Qed.

Lemma breakless_app (a b : str) :
  breakless (a ++ b) = breakless a && breakless b.
Proof. apply forallb_app. Qed.

(** A text without boundary is read into the current line. *)
Lemma splitlines_from_breakless (body : str) :
  breakless body = true ->
  forall cur rest,
    splitlines_from cur (body ++ rest) = splitlines_from (cur ++ body) rest.
Proof.
  induction body as [|c body IH]; intros Hb cur rest; simpl.
  - now rewrite app_nil_r.
  - simpl in Hb. apply andb_prop in Hb as [Hc Hb].
    apply negb_true_iff in Hc. rewrite Hc.
    rewrite IH by assumption. now rewrite <- app_assoc.
Qed.

(** Joining the lines gives the text back. *)
Lemma concat_splitlines_from (s : str) :
  forall cur, concat (splitlines_from cur s) = cur ++ s.
Proof.
  assert (G : forall n s, length s <= n ->
              forall cur, concat (splitlines_from cur s) = cur ++ s).
  { clear s. induction n as [|n IH]; intros [|c s] Hlen cur;
      cbn [splitlines_from length] in *; try lia.
    - destruct cur; cbn; now rewrite ?app_nil_r.
    - destruct cur; cbn; now rewrite ?app_nil_r.
    - destruct (is_linebreak c).
      + destruct s as [|d s].
        * cbn. now rewrite app_nil_r.
        * destruct ((c =? 13)%N && (d =? 10)%N); cbn [concat];
            rewrite IH by (cbn [length] in *; lia); cbn [app];
            rewrite <- app_assoc; reflexivity.
      + rewrite IH by lia. now rewrite <- app_assoc. }
  intros cur. now apply (G (length s)).
Qed.

Lemma well_split_splitlines_from (s : str) :
  forall cur, breakless cur = true -> well_split (splitlines_from cur s).
Proof.
  assert (G : forall n s, length s <= n ->
              forall cur, breakless cur = true ->
                          well_split (splitlines_from cur s)).
  { clear s. induction n as [|n IH]; intros [|c s] Hlen cur Hcur; simpl in *; try lia.
    - destruct cur; [constructor | now constructor].
    - destruct cur; [constructor | now constructor].
    - destruct (is_linebreak c) eqn:Hc.
      + destruct s as [|d s].
        * apply ws_closed; [assumption | left; eauto | constructor].
        * destruct ((c =? 13)%N && (d =? 10)%N) eqn:Hcr.
          -- apply andb_prop in Hcr as [H1 H2].
             apply N.eqb_eq in H1, H2. subst.
             apply ws_closed; [assumption | now right |].
             apply IH; [simpl in *; lia | reflexivity].
          -- apply ws_closed; [assumption | left; eauto |].
             apply IH; [simpl in *; lia | reflexivity].
      + apply IH; [lia|]. rewrite breakless_app, Hcur. simpl. now rewrite Hc. }
  intros cur. now apply (G (length s)).
Qed.

(** Lines that each start with a prefix free of boundaries are found again
    when their concatenation is split. *)
Lemma splitlines_prefixed (q0 : char) (q : str) (ls : list str) :
  breakless (q0 :: q) = true -> q0 <> 10%N -> well_split ls ->
  splitlines_from [] (concat (map (app (q0 :: q)) ls)) = map (app (q0 :: q)) ls.
Proof.
  intros Hq Hq0 Hls. set (Q := q0 :: q) in *.
  induction Hls as [|body Hne Hb|body t ls Hb Ht Hls IH].
  - reflexivity.
  - cbn [map concat]. rewrite app_nil_r.
    transitivity (splitlines_from [] ((Q ++ body) ++ []));
      [now rewrite app_nil_r|].
    rewrite splitlines_from_breakless
      by (rewrite breakless_app, Hq, Hb; reflexivity).
    reflexivity.
  - cbn [map concat].
    remember (concat (map (app Q) ls)) as R eqn:HR.
    rewrite (app_assoc Q body t), <- (app_assoc (Q ++ body) t R).
    rewrite splitlines_from_breakless
      by (rewrite breakless_app, Hq, Hb; reflexivity).
    change ([] ++ Q ++ body) with (Q ++ body).
    destruct Ht as [(b & -> & Hbk) | ->].
    + change ([b] ++ R) with (b :: R). cbn [splitlines_from]. rewrite Hbk.
      destruct ls as [|l ls'].
      * subst R. reflexivity.
      * assert (HR' : exists R', R = q0 :: R') by (subst R; cbn; eauto).
        destruct HR' as [R' HR']. rewrite HR' in *.
        apply N.eqb_neq in Hq0. rewrite Hq0, andb_false_r.
        now rewrite IH.
    + change ([13; 10]%N ++ R) with (13%N :: 10%N :: R).
      cbn [splitlines_from].
      change (is_linebreak 13%N) with true.
      change ((13 =? 13)%N && (10 =? 10)%N) with true.
      cbn iota. now rewrite IH.
Qed.

Lemma breakless_quote_marker : breakless quote_marker = true.
Proof. reflexivity. Qed.

(** The lines of a quoted text are the lines of the text, each quoted. *)
Lemma splitlines_indent_all (s : str) :
  splitlines_keepends (indent s quote_marker (fun _ => true))
  = map (app quote_marker) (splitlines_keepends s).
Proof.
  unfold indent, splitlines_keepends.
  change (splitlines_from [] (concat (map (app [62; 32]%N) (splitlines_from [] s)))
          = map (app [62; 32]%N) (splitlines_from [] s)).
  apply splitlines_prefixed.
  - reflexivity.
  - discriminate.
  - now apply well_split_splitlines_from.
Qed.

Lemma to_markdown_unfold (t : str) :
  to_markdown t
  = concat (map (app quote_marker)
                (splitlines_keepends (replace_bullets bullet_marker t))).
Proof.
  unfold to_markdown, indent. now rewrite str_replace_bullet.
Qed.

(** C7: the formatter on the two bulleted lines of the specification's
    example, ["• a\n• b"], returns [">   * a\n>   * b"]: each line is
    quoted and each bullet has become ["  *"]. *)
Theorem to_markdown_two_bullets :
  to_markdown ([bullet] ++ lit " a" ++ nl ++ [bullet] ++ lit " b")
  = lit ">   * a" ++ nl ++ lit ">   * b".
Proof. reflexivity. Qed.

(** C8, counterexample: on the text that is one bullet the formatter
    returns [">   *"], with two spaces before the asterisk, and not the
    [">  *"] a marker of a space and an asterisk would give. *)
Lemma to_markdown_marker_counterexample :
  splitlines_keepends (to_markdown [bullet]) = [lit ">   *"]
  /\ lines_as_specified [bullet] = [lit ">  *"]
  /\ splitlines_keepends (to_markdown [bullet]) <> lines_as_specified [bullet].
Proof. repeat split; discriminate. Qed.

(** C8, amended: for every text the formatter replaces every bullet glyph
    by the three code points of ["  *"] (two spaces and an asterisk) and
    keeps every other code point, and then puts ["> "] before every line
    of that text, the first one and blank ones too: the lines of the
    result are the lines of the text with its bullets replaced, each with
    ["> "] before it, and those lines joined are that text. *)
Theorem to_markdown_replaces_and_quotes (t : str) :
  bullet_marker = [32; 32; 42]%N
  /\ to_markdown t
     = concat (map (app quote_marker)
                   (splitlines_keepends (replace_bullets bullet_marker t)))
  /\ splitlines_keepends (to_markdown t)
     = map (app quote_marker)
           (splitlines_keepends (replace_bullets bullet_marker t))
  /\ concat (splitlines_keepends (replace_bullets bullet_marker t))
     = replace_bullets bullet_marker t.
Proof.
  split; [reflexivity|]. split; [apply to_markdown_unfold|]. split.
  - unfold to_markdown. rewrite str_replace_bullet. apply splitlines_indent_all.
  - apply (concat_splitlines_from _ []).
Qed.

Lemma replace_bullets_without (marker s : str) :
  ~ In bullet s -> replace_bullets marker s = s.
Proof.
  induction s as [|c s IH]; intros Hs; [reflexivity|].
  cbn [replace_bullets flat_map].
  destruct (c =? bullet)%N eqn:E.
  - apply N.eqb_eq in E. exfalso. apply Hs. now left.
  - cbn [app]. f_equal. apply IH. intros H. apply Hs. now right.
Qed.

Lemma replace_bullets_clean (marker s : str) :
  ~ In bullet marker -> ~ In bullet (replace_bullets marker s).
Proof.
  intros Hm. induction s as [|c s IH]; [intros []|].
  cbn [replace_bullets flat_map]. intros H. apply in_app_or in H as [H | H].
  - destruct (c =? bullet)%N eqn:E; [now apply Hm|].
    apply N.eqb_neq in E. destruct H as [-> | []]. now apply E.
  - now apply IH.
Qed.

Lemma in_concat_prefixed (c : char) (q : str) (ls : list str) :
  In c (concat (map (app q) ls)) -> In c q \/ In c (concat ls).
Proof.
  induction ls as [|l ls IH]; cbn [map concat]; [intros []|].
  intros H. apply in_app_or in H as [H | H].
  - apply in_app_or in H as [H | H]; [now left | right].
    apply in_or_app. now left.
  - destruct (IH H) as [Hq | Hl]; [now left | right].
    apply in_or_app. now right.
Qed.

(** The formatter leaves no bullet in its result. *)
Lemma to_markdown_clean (t : str) : ~ In bullet (to_markdown t).
Proof.
  rewrite to_markdown_unfold. intros H.
  apply in_concat_prefixed in H as [H | H].
  - cbn in H. repeat (destruct H as [H | H]; [discriminate H|]). exact H.
  - unfold splitlines_keepends in H. rewrite concat_splitlines_from in H.
    revert H. apply replace_bullets_clean.
    cbn. intros H. repeat (destruct H as [H | H]; [discriminate H|]). exact H.
Qed.

(** A second application quotes every line of the first result again. *)
Lemma to_markdown_again (t : str) :
  splitlines_keepends (to_markdown (to_markdown t))
  = map (app quote_marker) (splitlines_keepends (to_markdown t)).
Proof.
  unfold to_markdown at 1. rewrite str_replace_bullet.
  rewrite (replace_bullets_without _ _ (to_markdown_clean t)).
  apply splitlines_indent_all.
Qed.

Lemma replace_bullets_nonempty (t : str) :
  t <> [] -> replace_bullets bullet_marker t <> [].
Proof.
  destruct t as [|c t]; [contradiction|]. intros _.
  cbn [replace_bullets flat_map].
  destruct (c =? bullet)%N; discriminate.
Qed.

Lemma to_markdown_lines_nonempty (t : str) :
  t <> [] -> splitlines_keepends (to_markdown t) <> [].
Proof.
  intros Ht Hnil. unfold to_markdown in Hnil.
  rewrite str_replace_bullet, splitlines_indent_all in Hnil.
  apply map_eq_nil in Hnil.
  pose proof (concat_splitlines_from (replace_bullets bullet_marker t) []) as Hjoin.
  unfold splitlines_keepends in Hnil. rewrite Hnil in Hjoin.
  now apply (replace_bullets_nonempty t Ht).
Qed.

(** C9: the formatter is not idempotent: on ["a"] a second application
    gives ["> > a"] and not ["> a"]; in general the second application
    puts ["> "] again before every line of the first result, so that it
    changes every non-empty text. *)
Theorem to_markdown_not_idempotent :
  (exists t : str,
      to_markdown (to_markdown t) <> to_markdown t
      /\ to_markdown t = lit "> a"
      /\ to_markdown (to_markdown t) = lit "> > a")
  /\ (forall t : str,
        splitlines_keepends (to_markdown (to_markdown t))
        = map (app quote_marker) (splitlines_keepends (to_markdown t)))
  /\ (forall t : str, t <> [] -> to_markdown (to_markdown t) <> to_markdown t).
Proof.
  split; [|split].
  - exists (lit "a"). repeat split. discriminate.
  - apply to_markdown_again.
  - intros t Ht Hsame.
    pose proof (to_markdown_again t) as Hagain. rewrite Hsame in Hagain.
    pose proof (to_markdown_lines_nonempty t Ht) as Hne.
    destruct (splitlines_keepends (to_markdown t)) as [|l ls]; [now apply Hne|].
    cbn [map] in Hagain. injection Hagain as Hl _.
    apply (f_equal (@length char)) in Hl. cbn [length] in Hl. lia.
Qed.

(** C9 at a text of two lines, one of them blank. *)
Lemma to_markdown_not_idempotent_witness :
  to_markdown (nl ++ lit "b") = lit "> " ++ nl ++ lit "> b"
  /\ to_markdown (to_markdown (nl ++ lit "b")) <> to_markdown (nl ++ lit "b").
Proof.
  split; [reflexivity|].
  destruct to_markdown_not_idempotent as (_ & _ & H).
  apply H. discriminate.
Defined.

(** ** The model resolver *)

Lemma scan_candidates_first (candidates available : list str) (c : str) :
  first_available candidates available c ->
  scan_candidates candidates available = Some c.
Proof.
  intros (before & after & -> & Hc & Hbefore).
  induction before as [|x before IH]; cbn [app scan_candidates].
  - apply str_in_In in Hc. now rewrite Hc.
  - assert (Hx : str_in x available = false)
      by (apply str_in_not_In, Hbefore; now left).
    rewrite Hx. apply IH. intros y Hy. apply Hbefore. now right.
Qed.

Lemma scan_candidates_Some (candidates available : list str) (c : str) :
  scan_candidates candidates available = Some c ->
  first_available candidates available c.
Proof.
  induction candidates as [|x cs IH]; cbn [scan_candidates]; [discriminate|].
  destruct (str_in x available) eqn:Hx.
  - intros [= ->]. exists [], cs. repeat split.
    + now apply str_in_In.
    + intros y [].
  - intros H. destruct (IH H) as (before & after & -> & Hc & Hb).
    exists (x :: before), after. repeat split; [assumption|].
    intros y [<- | Hy]; [now apply str_in_not_In | now apply Hb].
Qed.

Lemma scan_candidates_none (candidates available : list str) :
  (forall c, In c candidates -> ~ In c available) ->
  scan_candidates candidates available = None.
Proof.
  induction candidates as [|x cs IH]; intros H; cbn [scan_candidates];
    [reflexivity|].
  assert (Hx : str_in x available = false) by (apply str_in_not_In, H; now left).
  rewrite Hx. apply IH. intros c Hc. apply H. now right.
Qed.

Lemma join_contains (sep x : str) (xs : list str) :
  In x xs -> contains (join sep xs) x.
Proof.
  induction xs as [|y xs IH]; intros Hin; [destruct Hin|].
  destruct Hin as [-> | Hin].
  - destruct xs as [|z xs].
    + exists [], []. cbn. now rewrite app_nil_r.
    + exists [], (sep ++ join sep (z :: xs)). reflexivity.
  - destruct xs as [|z xs]; [destruct Hin|].
    destruct (IH Hin) as (before & after & E).
    exists (y ++ sep ++ before), after.
    change (join sep (y :: z :: xs)) with (y ++ sep ++ join sep (z :: xs)).
    rewrite E. now rewrite <- !app_assoc.
Qed.

Lemma contains_app_r (prefix msg name : str) :
  contains msg name -> contains (prefix ++ msg) name.
Proof.
  intros (before & after & ->). exists (prefix ++ before), after.
  now rewrite <- app_assoc.
Qed.

(** The three ways a successful listing is resolved. *)
Lemma choose_model_listed (available : list str) (preferred : str) :
  choose_model (Val available) preferred
  = ([ListModels],
     if str_in preferred available then Val preferred
     else match scan_candidates fallback_candidates available with
          | Some candidate => Val candidate
          | None => Exc (RuntimeError (not_available_message preferred available))
          end).
Proof.
  unfold choose_model, try_except, bind, emit, ret, raise. cbv beta iota.
  destruct (str_in preferred available); [reflexivity|].
  destruct (scan_candidates fallback_candidates available); reflexivity.
Qed.

(** C1: on a listing [available] of the provider, [choose_model] returns
    [preferred] when it is listed; otherwise the first listed member of
    the fallback list, scanned in its order; otherwise it raises, and the
    message of the error contains every listed name. *)
Theorem choose_model_policy (available : list str) (preferred : str) :
  fallback_candidates
  = [lit "gemini-2.5-flash"; lit "gemini-2.5-flash-lite"; lit "gemini-flash-latest"]
  /\ (In preferred available ->
      choose_model (Val available) preferred = ([ListModels], Val preferred))
  /\ (~ In preferred available ->
      forall c, first_available fallback_candidates available c ->
      choose_model (Val available) preferred = ([ListModels], Val c))
  /\ (~ In preferred available ->
      (forall c, In c fallback_candidates -> ~ In c available) ->
      exists msg,
        choose_model (Val available) preferred = ([ListModels], Exc (RuntimeError msg))
        /\ forall name, In name available -> contains msg name).
Proof.
  rewrite choose_model_listed. split; [reflexivity|]. split; [|split].
  - intros H. apply str_in_In in H. now rewrite H.
  - intros H c Hc. apply str_in_not_In in H. rewrite H.
    now rewrite (scan_candidates_first _ _ _ Hc).
  - intros H Hnone. apply str_in_not_In in H. rewrite H.
    rewrite (scan_candidates_none _ _ Hnone).
    eexists. split; [reflexivity|].
    intros name Hname. unfold not_available_message.
    apply contains_app_r. now apply join_contains.
Qed.

(** C1, at concrete listings: the preferred model listed; only the second
    fallback listed; nothing acceptable listed. *)
Lemma choose_model_policy_witness :
  choose_model (Val [lit "a"; lit "gemini-flash-latest"]) (lit "gemini-flash-latest")
  = ([ListModels], Val (lit "gemini-flash-latest"))
  /\ choose_model (Val [lit "gemini-2.5-flash-lite"; lit "b"]) (lit "gemini-pro")
     = ([ListModels], Val (lit "gemini-2.5-flash-lite"))
  /\ exists msg,
       choose_model (Val [lit "a"; lit "b"]) (lit "gemini-pro")
       = ([ListModels], Exc (RuntimeError msg))
       /\ forall name, In name [lit "a"; lit "b"] -> contains msg name.
Proof.
  split; [|split].
  - destruct (choose_model_policy [lit "a"; lit "gemini-flash-latest"]
                (lit "gemini-flash-latest")) as (_ & H & _).
    apply H. right; left; reflexivity.
  - destruct (choose_model_policy [lit "gemini-2.5-flash-lite"; lit "b"]
                (lit "gemini-pro")) as (_ & _ & H & _).
    apply H.
    + intros [E | [E | []]]; discriminate E.
    + exists [lit "gemini-2.5-flash"], [lit "gemini-flash-latest"].
      split; [reflexivity|]. split; [left; reflexivity|].
      intros x [<- | []] [E | [E | []]]; discriminate E.
  - destruct (choose_model_policy [lit "a"; lit "b"] (lit "gemini-pro"))
      as (_ & _ & _ & H).
    apply H.
    + intros [E | [E | []]]; discriminate E.
    + intros c [<- | [<- | [<- | []]]] [E | [E | []]]; discriminate E.
Defined.

(** C5, counterexample: the last member of the fallback list is the
    default preferred identifier, the one [main] passes. *)
Lemma fallback_contains_default :
  nth 2 fallback_candidates [] = default_preferred
  /\ In default_preferred fallback_candidates
  /\ ~ fallback_distinct_from default_preferred.
Proof.
  split; [reflexivity|]. split.
  - right; right; left; reflexivity.
  - intros H. apply (H default_preferred); [|reflexivity].
    right; right; left; reflexivity.
Qed.

(** C5, amended: the fallback list is the default preferred identifier
    after two identifiers that differ from it; and since the list is
    scanned only when [preferred] is not listed, a model the scan returns
    is never [preferred] itself: it is the first listed fallback. *)
Theorem fallback_list_and_preferred :
  (exists a b,
      fallback_candidates = [a; b; default_preferred]
      /\ a <> default_preferred /\ b <> default_preferred)
  /\ forall (available : list str) (preferred m : str),
      ~ In preferred available ->
      choose_model (Val available) preferred = ([ListModels], Val m) ->
      m <> preferred /\ first_available fallback_candidates available m.
Proof.
  split.
  - exists (lit "gemini-2.5-flash"), (lit "gemini-2.5-flash-lite").
    repeat split; discriminate.
  - intros available preferred m Hp. rewrite choose_model_listed.
    apply str_in_not_In in Hp. rewrite Hp.
    destruct (scan_candidates fallback_candidates available) as [c|] eqn:Hscan;
      [|discriminate].
    intros [= <-]. apply scan_candidates_Some in Hscan. split; [|assumption].
    destruct Hscan as (_ & _ & _ & Hc & _).
    intros ->. apply str_in_not_In in Hp. contradiction.
Qed.

(** C5, amended, at a concrete listing: with the default preferred
    identifier not listed, the scan returns the first fallback. *)
Lemma fallback_list_and_preferred_witness :
  lit "gemini-2.5-flash" <> default_preferred
  /\ first_available fallback_candidates [lit "x"; lit "gemini-2.5-flash"]
       (lit "gemini-2.5-flash").
Proof.
  destruct fallback_list_and_preferred as [_ H].
  apply (H [lit "x"; lit "gemini-2.5-flash"] default_preferred (lit "gemini-2.5-flash")).
  - intros [E | [E | []]]; discriminate E.
  - reflexivity.
Defined.

(** ** The interaction loop and the process *)

Section LoopProperties.

Context {unicode : CaseMapping} {sdk : GenAI}.

Lemma while_true_feed (pre rest : list (res str)) :
  forall chat tpre chat',
    feed chat pre = (tpre, Continue chat') ->
    while_true chat (pre ++ rest)
    = let (t, r) := while_true chat' rest in (tpre ++ t, r).
Proof.
  induction pre as [|i pre IH]; intros chat tpre chat' Hfeed.
  - cbn in Hfeed. injection Hfeed as <- <-. cbn [app].
    now destruct (while_true chat rest).
  - cbn [feed] in Hfeed. cbn [app while_true].
    destruct (loop_body chat i) as [t [chat1| |e]]; try discriminate.
    destruct (feed chat1 pre) as [t' c] eqn:Hf.
    injection Hfeed as <- ->.
    rewrite (IH _ _ _ Hf).
    destruct (while_true chat' rest) as [t2 r]. now rewrite app_assoc.
Qed.

(** Running out of input is an [EOFError] at the prompt. *)
Lemma while_true_exhausted (inputs : list (res str)) :
  forall chat, while_true chat inputs = while_true chat (inputs ++ [Exc EOFError]).
Proof.
  induction inputs as [|i inputs IH]; intros chat; [reflexivity|].
  cbn [app while_true].
  destruct (loop_body chat i) as [t [chat1| |e]]; try reflexivity.
  now rewrite IH.
Qed.

Lemma choose_model_trace (listing : res (list str)) (preferred : str)
    (t : list event) (r : res str) :
  choose_model listing preferred = (t, r) -> t = [ListModels].
Proof.
  destruct listing as [available|e].
  - rewrite choose_model_listed. now intros [= <- _].
  - unfold choose_model, try_except, bind, emit, raise. cbv beta iota.
    destruct (is_Exception e); now intros [= <- _].
Qed.

(** [main] once the credential is set and a model is chosen: the loop
    runs, and how it ends decides how the process ends. *)
Lemma main_runs_loop (key : str) (listing : res (list str))
    (inputs : list (res str)) (t1 : list event) (m : str) :
  key <> [] ->
  choose_model listing default_preferred = (t1, Val m) ->
  main (Some key) listing inputs
  = let (t, r) := while_true (start_chat (GenerativeModel m system_instruction)) inputs in
    match r with
    | Val _ => (Configure key :: t1 ++ header ++ t, Val tt)
    | Exc e =>
        if is_Exception e
        then (Configure key :: t1 ++ header ++ t
                ++ [PrintErr (lit "Unexpected error: " ++ exn_str e)],
              Exc (SystemExit 1))
        else (Configure key :: t1 ++ header ++ t, Exc e)
    end.
Proof.
  intros Hkey Hm. destruct key as [|k key]; [contradiction|].
  unfold main. change (lit "gemini-flash-latest") with default_preferred.
  rewrite Hm. unfold run_chat_loop, configure_genai, try_except, bind, emit,
    sys_exit, raise. cbv beta iota.
  destruct (while_true _ inputs) as [t [[]|e]].
  - reflexivity.
  - destruct (is_Exception e); cbn [app]; rewrite ?app_nil_r;
      unfold header; cbn [app]; rewrite <- ?app_assoc; reflexivity.
Qed.

Lemma main_after_feed (key : str) (listing : res (list str))
    (pre rest : list (res str)) (t1 tpre : list event) (m : str)
    (chat' : ChatSession) :
  key <> [] ->
  choose_model listing default_preferred = (t1, Val m) ->
  feed (start_chat (GenerativeModel m system_instruction)) pre
  = (tpre, Continue chat') ->
  main (Some key) listing (pre ++ rest)
  = let (t, r) := while_true chat' rest in
    match r with
    | Val _ => (Configure key :: t1 ++ header ++ tpre ++ t, Val tt)
    | Exc e =>
        if is_Exception e
        then (Configure key :: t1 ++ header ++ tpre ++ t
                ++ [PrintErr (lit "Unexpected error: " ++ exn_str e)],
              Exc (SystemExit 1))
        else (Configure key :: t1 ++ header ++ tpre ++ t, Exc e)
    end.
Proof.
  intros Hkey Hm Hfeed.
  rewrite (main_runs_loop _ _ _ _ _ Hkey Hm), (while_true_feed _ _ _ _ _ Hfeed).
  destruct (while_true chat' rest) as [t [[]|e]]; [reflexivity|].
  destruct (is_Exception e); rewrite <- ?app_assoc; reflexivity.
Qed.

Lemma sends_app (a b : list event) : sends (a ++ b) = sends a ++ sends b.
Proof.
  induction a as [|ev a IH]; [reflexivity|].
  destruct ev; cbn [app sends]; now rewrite IH.
Qed.

(** The events before the loop starts carry no send. *)
Lemma sends_startup (key : str) (t1 t : list event) :
  t1 = [ListModels] -> sends (Configure key :: t1 ++ header ++ t) = sends t.
Proof. intros ->. reflexivity. Qed.

Lemma ascii_lower_ascii (c : char) :
  is_ascii (ascii_lower c) = true -> is_ascii c = true.
Proof.
  unfold is_ascii, ascii_lower.
  destruct ((65 <=? c)%N && (c <=? 90)%N) eqn:E; [|trivial].
  rewrite !N.ltb_lt. lia.
Qed.

Lemma forallb_ascii_lower (s : str) :
  forallb is_ascii (map ascii_lower s) = true -> forallb is_ascii s = true.
Proof.
  induction s as [|c s IH]; [reflexivity|]. cbn [map forallb].
  intros H. apply andb_prop in H as [Hc Hs].
  now rewrite (ascii_lower_ascii _ Hc), IH.
Qed.

(** A text equal to a lower-case ASCII word up to case is lower-cased to
    that word by the interpreter. *)
Lemma ci_eqb_str_lower (q w : str) :
  forallb is_ascii w = true -> map ascii_lower w = w ->
  ci_eqb q w = true -> str_lower q = w.
Proof.
  intros Hw Hlow Hci. unfold ci_eqb in Hci. apply str_eqb_eq in Hci.
  rewrite Hlow in Hci. rewrite str_lower_ascii; [assumption|].
  apply forallb_ascii_lower. now rewrite Hci.
Qed.

Lemma ci_exit_command (q : str) :
  ci_eqb q (lit "exit") = true \/ ci_eqb q (lit "quit") = true ->
  q <> [] /\ is_exit_command q = true.
Proof.
  intros H. split.
  - intros ->. destruct H as [H | H]; discriminate H.
  - unfold is_exit_command.
    destruct H as [H | H]; apply ci_eqb_str_lower in H; try reflexivity;
      now rewrite H.
Qed.

(** On ASCII text the loop's test is equality with "quit" or "exit" up to
    case. *)
Lemma is_exit_command_ascii (q : str) :
  forallb is_ascii q = true ->
  is_exit_command q = ci_eqb q (lit "quit") || ci_eqb q (lit "exit").
Proof.
  intros Hq. unfold is_exit_command, ci_eqb.
  rewrite (str_lower_ascii _ Hq). cbn [str_in existsb].
  now rewrite orb_false_r.
Qed.

Lemma loop_body_empty (chat : ChatSession) (line : str) :
  strip line = [] ->
  loop_body chat (Val line) = ([Prompt question_prompt], Continue chat).
Proof. intros H. unfold loop_body. now rewrite H. Qed.

Lemma loop_body_exit (chat : ChatSession) (line : str) :
  strip line <> [] -> is_exit_command (strip line) = true ->
  loop_body chat (Val line) = ([Prompt question_prompt; Print goodbye], Break).
Proof.
  intros Hne Hexit. unfold loop_body, is_exit_command in *.
  destruct (strip line) as [|c q]; [contradiction|]. now rewrite Hexit.
Qed.

Lemma loop_body_question (chat : ChatSession) (line : str) :
  strip line <> [] -> is_exit_command (strip line) = false ->
  loop_body chat (Val line)
  = let (t, c) := dispatch chat (strip line) in (Prompt question_prompt :: t, c).
Proof.
  intros Hne Hexit. unfold loop_body, is_exit_command in *.
  destruct (strip line) as [|c q]; [contradiction|]. now rewrite Hexit.
Qed.

(** A dispatch issues its send first, and only that one. *)
Lemma dispatch_sends (chat : ChatSession) (q : str) :
  exists t' c, dispatch chat q = (Send q :: t', c) /\ sends t' = [].
Proof.
  unfold dispatch.
  destruct (send_message chat q) as [[response|e] chat1].
  - destruct (text response) as [reply|e]; [eauto|].
    destruct (is_Exception e); eauto.
  - destruct (is_Exception e); eauto.
Qed.

(** However a pass through the loop body ends, the loop as a whole
    carries on from it. *)
Lemma while_true_step (chat : ChatSession) (i : res str) (rest : list (res str)) :
  exists t_rest r,
    while_true chat (i :: rest) = (fst (loop_body chat i) ++ t_rest, r).
Proof.
  cbn [while_true]. destruct (loop_body chat i) as [t [chat1| |e]]; cbn [fst].
  - destruct (while_true chat1 rest) as [t' r]. eauto.
  - exists [], (Val tt). now rewrite app_nil_r.
  - exists [], (Exc e). now rewrite app_nil_r.
Qed.

(** C2: whatever the loop has read before, an input that is empty once
    stripped issues no send and leaves the loop awaiting input with its
    session, and an input that is neither empty nor an exit command once
    stripped issues exactly one send, of the stripped text. *)
Theorem one_send_per_question (chat : ChatSession) (pre rest : list (res str))
    (tpre : list event) (chat' : ChatSession) (line : str) :
  feed chat pre = (tpre, Continue chat') ->
  exists t c t_rest r,
    loop_body chat' (Val line) = (t, c)
    /\ while_true chat (pre ++ Val line :: rest) = (tpre ++ t ++ t_rest, r)
    /\ (strip line = [] ->
        t = [Prompt question_prompt] /\ c = Continue chat' /\ sends t = [])
    /\ (strip line <> [] -> is_exit_command (strip line) = false ->
        sends t = [strip line]
        /\ exists t', t = Prompt question_prompt :: Send (strip line) :: t'
                      /\ sends t' = []).
Proof.
  intros Hfeed.
  destruct (while_true_step chat' (Val line) rest) as (t_rest & r & Hrun).
  destruct (loop_body chat' (Val line)) as [t c] eqn:Hbody. cbn [fst] in Hrun.
  exists t, c, t_rest, r. split; [reflexivity|]. split; [|split].
  - now rewrite (while_true_feed _ _ _ _ _ Hfeed), Hrun.
  - intros Hempty. rewrite (loop_body_empty _ _ Hempty) in Hbody.
    injection Hbody as <- <-. auto.
  - intros Hne Hexit. rewrite (loop_body_question _ _ Hne Hexit) in Hbody.
    destruct (dispatch_sends chat' (strip line)) as (t' & c' & Hd & Hs).
    rewrite Hd in Hbody. injection Hbody as <- <-.
    cbn [sends]. rewrite Hs. eauto.
Qed.

(** C3: whatever the loop has read before, an input that once stripped is
    "exit" or "quit" up to case, and the end of input as well (an
    [EOFError] at the prompt, which is also what running out of input
    is), ends the loop: the farewell is printed and nothing is sent for
    that input, and the process ends with exit code 0. *)
Theorem exit_command_ends_the_loop (key : str) (listing : res (list str))
    (t1 : list event) (m : str) (pre rest : list (res str))
    (tpre : list event) (chat' : ChatSession) (i : res str) :
  key <> [] ->
  choose_model listing default_preferred = (t1, Val m) ->
  feed (start_chat (GenerativeModel m system_instruction)) pre
  = (tpre, Continue chat') ->
  (i = Exc EOFError
   \/ exists line,
        i = Val line
        /\ (ci_eqb (strip line) (lit "exit") = true
            \/ ci_eqb (strip line) (lit "quit") = true)) ->
  exists farewell,
    (farewell = goodbye \/ farewell = nl ++ goodbye)
    /\ loop_body chat' i = ([Prompt question_prompt; Print farewell], Break)
    /\ main (Some key) listing (pre ++ i :: rest)
       = (Configure key :: t1 ++ header ++ tpre
            ++ [Prompt question_prompt; Print farewell], Val tt)
    /\ exit_status (snd (main (Some key) listing (pre ++ i :: rest))) = Exited 0
    /\ sends (fst (main (Some key) listing (pre ++ i :: rest))) = sends tpre
    /\ main (Some key) listing pre
       = (Configure key :: t1 ++ header ++ tpre
            ++ [Prompt question_prompt; Print (nl ++ goodbye)], Val tt).
Proof.
  intros Hkey Hm Hfeed Hi.
  assert (Hend : main (Some key) listing pre
                 = (Configure key :: t1 ++ header ++ tpre
                      ++ [Prompt question_prompt; Print (nl ++ goodbye)], Val tt)).
  { rewrite (main_runs_loop _ _ _ _ _ Hkey Hm), while_true_exhausted.
    rewrite (while_true_feed _ _ _ _ _ Hfeed). reflexivity. }
  assert (Hbody : exists farewell,
             (farewell = goodbye \/ farewell = nl ++ goodbye)
             /\ loop_body chat' i = ([Prompt question_prompt; Print farewell], Break)).
  { destruct Hi as [-> | (line & -> & Hci)].
    - exists (nl ++ goodbye). split; [now right | reflexivity].
    - exists goodbye. split; [now left|].
      apply ci_exit_command in Hci as [Hne Hexit]. now apply loop_body_exit. }
  destruct Hbody as (farewell & Hf & Hbody). exists farewell.
  assert (Hmain : main (Some key) listing (pre ++ i :: rest)
                  = (Configure key :: t1 ++ header ++ tpre
                       ++ [Prompt question_prompt; Print farewell], Val tt)).
  { rewrite (main_after_feed _ _ _ _ _ _ _ _ Hkey Hm Hfeed). cbn [while_true].
    now rewrite Hbody. }
  rewrite Hmain. cbn [fst snd exit_status]. repeat split; try assumption.
  rewrite (sends_startup _ _ _ (choose_model_trace _ _ _ _ Hm)), sends_app.
  cbn [sends]. now rewrite app_nil_r.
Qed.

Lemma feed_app (pre more : list (res str)) :
  forall chat tpre chat',
    feed chat pre = (tpre, Continue chat') ->
    feed chat (pre ++ more) = let (t, c) := feed chat' more in (tpre ++ t, c).
Proof.
  induction pre as [|i pre IH]; intros chat tpre chat' Hfeed.
  - cbn in Hfeed. injection Hfeed as <- <-. cbn [app].
    now destruct (feed chat more).
  - cbn [feed] in Hfeed. cbn [app feed].
    destruct (loop_body chat i) as [t [chat1| |e]]; try discriminate.
    destruct (feed chat1 pre) as [t' c] eqn:Hf.
    injection Hfeed as <- ->.
    rewrite (IH _ _ _ Hf).
    destruct (feed chat' more) as [t2 c2]. now rewrite app_assoc.
Qed.

Lemma loop_body_send_raises (chat chat1 : ChatSession) (line : str) (e : exn) :
  strip line <> [] -> is_exit_command (strip line) = false ->
  send_message chat (strip line) = (Exc e, chat1) ->
  loop_body chat (Val line)
  = if is_Exception e
    then ([Prompt question_prompt; Send (strip line);
           PrintErr (send_error_prefix ++ exn_str e)], Continue chat1)
    else ([Prompt question_prompt; Send (strip line)], Propagate e).
Proof.
  intros Hne Hexit Hsend. rewrite (loop_body_question _ _ Hne Hexit).
  unfold dispatch. rewrite Hsend. now destruct (is_Exception e).
Qed.

Lemma loop_body_reply (chat chat1 : ChatSession) (line reply : str) :
  strip line <> [] -> is_exit_command (strip line) = false ->
  send_message chat (strip line) = (Val {| text := Val reply |}, chat1) ->
  loop_body chat (Val line)
  = ([Prompt question_prompt; Send (strip line); Print answer_header;
      Print (to_markdown reply); Print answer_footer], Continue chat1).
Proof.
  intros Hne Hexit Hsend. rewrite (loop_body_question _ _ Hne Hexit).
  unfold dispatch. now rewrite Hsend.
Qed.

(** C4: when the send of a turn raises an error, the error is printed on
    stderr and the loop is awaiting input again, with the session as the
    failed send left it: it goes on with the inputs that follow, and a
    next question is sent on that session and its reply printed. *)
Theorem send_failure_is_local (chat : ChatSession) (pre : list (res str))
    (tpre : list event) (chat' chat1 : ChatSession) (line : str) (e : exn) :
  feed chat pre = (tpre, Continue chat') ->
  strip line <> [] -> is_exit_command (strip line) = false ->
  send_message chat' (strip line) = (Exc e, chat1) ->
  is_Exception e = true ->
  let failed_turn :=
    [Prompt question_prompt; Send (strip line);
     PrintErr (send_error_prefix ++ exn_str e)] in
  feed chat (pre ++ [Val line]) = (tpre ++ failed_turn, Continue chat1)
  /\ (forall rest,
        while_true chat (pre ++ Val line :: rest)
        = let (t, r) := while_true chat1 rest in (tpre ++ failed_turn ++ t, r))
  /\ (forall line2 reply chat2,
        strip line2 <> [] -> is_exit_command (strip line2) = false ->
        send_message chat1 (strip line2) = (Val {| text := Val reply |}, chat2) ->
        feed chat (pre ++ [Val line; Val line2])
        = (tpre ++ failed_turn
             ++ [Prompt question_prompt; Send (strip line2); Print answer_header;
                 Print (to_markdown reply); Print answer_footer],
           Continue chat2)).
Proof.
  intros Hfeed Hne Hexit Hsend He failed_turn.
  pose proof (loop_body_send_raises _ _ _ _ Hne Hexit Hsend) as Hbody.
  rewrite He in Hbody. fold failed_turn in Hbody.
  split; [|split].
  - rewrite (feed_app _ _ _ _ _ Hfeed). cbn [feed]. rewrite Hbody.
    now rewrite app_nil_r.
  - intros rest. rewrite (while_true_feed _ _ _ _ _ Hfeed). cbn [while_true].
    rewrite Hbody. now destruct (while_true chat1 rest).
  - intros line2 reply chat2 Hne2 Hexit2 Hsend2.
    rewrite (feed_app _ _ _ _ _ Hfeed). cbn [feed]. rewrite Hbody.
    rewrite (loop_body_reply _ _ _ _ Hne2 Hexit2 Hsend2).
    now rewrite app_nil_r.
Qed.

(** C6, amended: an interrupt that arrives while the loop awaits input
    ends the loop with the farewell, and the process ends with exit code
    0; an interrupt that arrives while a send is in flight is caught
    neither by the loop nor by [main]: the [KeyboardInterrupt] leaves
    [main] uncaught, without farewell. *)
Theorem interrupt_at_prompt_and_in_flight (key : str) (listing : res (list str))
    (t1 : list event) (m : str) (pre rest : list (res str))
    (tpre : list event) (chat' : ChatSession) :
  key <> [] ->
  choose_model listing default_preferred = (t1, Val m) ->
  feed (start_chat (GenerativeModel m system_instruction)) pre
  = (tpre, Continue chat') ->
  (main (Some key) listing (pre ++ Exc KeyboardInterrupt :: rest)
   = (Configure key :: t1 ++ header ++ tpre
        ++ [Prompt question_prompt; Print (nl ++ goodbye)], Val tt)
   /\ exit_status (snd (main (Some key) listing (pre ++ Exc KeyboardInterrupt :: rest)))
      = Exited 0)
  /\ (forall line chat1,
        strip line <> [] -> is_exit_command (strip line) = false ->
        send_message chat' (strip line) = (Exc KeyboardInterrupt, chat1) ->
        main (Some key) listing (pre ++ Val line :: rest)
        = (Configure key :: t1 ++ header ++ tpre
             ++ [Prompt question_prompt; Send (strip line)],
           Exc KeyboardInterrupt)
        /\ exit_status (snd (main (Some key) listing (pre ++ Val line :: rest)))
           = Uncaught KeyboardInterrupt).
Proof.
  intros Hkey Hm Hfeed. split.
  - rewrite (main_after_feed _ _ _ _ _ _ _ _ Hkey Hm Hfeed). cbn [while_true].
    cbn. split; reflexivity.
  - intros line chat1 Hne Hexit Hsend.
    rewrite (main_after_feed _ _ _ _ _ _ _ _ Hkey Hm Hfeed). cbn [while_true].
    rewrite (loop_body_send_raises _ _ _ _ Hne Hexit Hsend). cbn.
    split; reflexivity.
Qed.

(** C10: with the credential variable absent or empty, [main] reports a
    configuration error on stderr and exits with code 1, and no network
    call is made: no listing of models, no send. *)
Theorem missing_credential_is_fatal (api_key : option str)
    (listing : res (list str)) (inputs : list (res str)) :
  api_key = None \/ api_key = Some [] ->
  main api_key listing inputs
  = ([PrintErr (lit "Configuration error: " ++ no_api_key_message)],
     Exc (SystemExit 1))
  /\ exit_status (snd (main api_key listing inputs)) = Exited 1
  /\ filter is_network (fst (main api_key listing inputs)) = [].
Proof.
  intros [-> | ->]; repeat split; reflexivity.
Qed.

End LoopProperties.

(** *** The loop on the scripted provider *)

(** The words of the specification's example are exit commands. *)
Lemma exit_words_example :
  map (fun w => ci_eqb (strip w) (lit "exit") || ci_eqb (strip w) (lit "quit"))
      [lit "exit"; lit "Exit"; lit "  QUIT  "; lit "exit now"]
  = [true; true; true; false].
Proof. reflexivity. Qed.

(** C2 at a concrete input: after one question, a second one is sent
    once, stripped. *)
Lemma one_send_per_question_witness :
  exists t',
    fst (@loop_body ascii_case_mapping echo_sdk [lit "hi"] (Val (lit " why? ")))
    = Prompt question_prompt :: Send (lit "why?") :: t'
    /\ sends t' = [].
Proof.
  destruct (@one_send_per_question ascii_case_mapping echo_sdk
              [] [Val (lit "hi")] []
              (fst (@feed ascii_case_mapping echo_sdk [] [Val (lit "hi")]))
              [lit "hi"] (lit " why? ") eq_refl)
    as (t & c & _ & _ & Hbody & _ & _ & Hq).
  destruct Hq as (_ & t' & Ht & Hs); [discriminate | reflexivity |].
  exists t'. rewrite Hbody. cbn [fst]. split; assumption.
Defined.

(** C3 at a concrete input: after one question, ["  QUIT  "] ends the
    process with exit code 0. *)
Lemma exit_command_ends_the_loop_witness :
  exit_status
    (snd (@main ascii_case_mapping echo_sdk (Some (lit "k"))
            (Val [lit "gemini-flash-latest"])
            [Val (lit "hi"); Val (lit "  QUIT  "); Val (lit "more")]))
  = Exited 0.
Proof.
  destruct (@exit_command_ends_the_loop ascii_case_mapping echo_sdk
              (lit "k") (Val [lit "gemini-flash-latest"]) [ListModels]
              default_preferred [Val (lit "hi")] [Val (lit "more")]
              (fst (@feed ascii_case_mapping echo_sdk [] [Val (lit "hi")]))
              [lit "hi"] (Val (lit "  QUIT  ")))
    as (farewell & _ & _ & _ & Hexit & _ & _).
  - discriminate.
  - reflexivity.
  - reflexivity.
  - right. exists (lit "  QUIT  "). split; [reflexivity | right; reflexivity].
  - exact Hexit.
Defined.

(** C4 at a concrete input: the provider fails on ["boom"], and the
    question after it is sent and answered. *)
Lemma send_failure_is_local_witness :
  snd (@feed ascii_case_mapping echo_sdk [] [Val (lit " boom "); Val (lit "hi")])
  = @Continue echo_sdk [lit "hi"].
Proof.
  destruct (@send_failure_is_local ascii_case_mapping echo_sdk
              [] [] [] [] [] (lit " boom ") (OtherError (lit "503 unavailable")))
    as (_ & _ & H).
  - reflexivity.
  - discriminate.
  - reflexivity.
  - reflexivity.
  - reflexivity.
  - assert (Hne : strip (lit "hi") <> []) by discriminate.
    exact (f_equal snd (H (lit "hi") (lit "hi") [lit "hi"] Hne eq_refl eq_refl)).
Defined.

(** C6, counterexample: an interrupt while a send is in flight leaves
    [main] as an uncaught [KeyboardInterrupt]: the process does not end
    with exit code 0, and no farewell is printed. *)
Lemma interrupt_in_flight_counterexample :
  sends (fst interrupted_run) = [lit "hang"]
  /\ snd interrupted_run = Exc KeyboardInterrupt
  /\ exit_status (snd interrupted_run) = Uncaught KeyboardInterrupt
  /\ exit_status (snd interrupted_run) <> Exited 0
  /\ existsb is_farewell (fst interrupted_run) = false.
Proof. repeat split. discriminate. Qed.

(** C6, amended, at a concrete input: an interrupt at the first prompt
    ends the process with exit code 0, one during the send of ["hang"]
    leaves [main] uncaught. *)
Lemma interrupt_at_prompt_and_in_flight_witness :
  exit_status
    (snd (@main ascii_case_mapping echo_sdk (Some (lit "k"))
            (Val [lit "gemini-flash-latest"]) [Exc KeyboardInterrupt]))
  = Exited 0
  /\ exit_status
       (snd (@main ascii_case_mapping echo_sdk (Some (lit "k"))
               (Val [lit "gemini-flash-latest"]) [Val (lit "hang")]))
     = Uncaught KeyboardInterrupt.
Proof.
  destruct (@interrupt_at_prompt_and_in_flight ascii_case_mapping echo_sdk
              (lit "k") (Val [lit "gemini-flash-latest"]) [ListModels]
              default_preferred [] [] [] [])
    as [[_ Hprompt] Hflight].
  - discriminate.
  - reflexivity.
  - reflexivity.
  - split; [exact Hprompt|].
    destruct (Hflight (lit "hang") []) as [_ H].
    + discriminate.
    + reflexivity.
    + reflexivity.
    + exact H.
Defined.

(** C10 at concrete inputs: the variable absent, and the variable empty. *)
Lemma missing_credential_is_fatal_witness :
  exit_status
    (snd (@main ascii_case_mapping echo_sdk None
            (Val [lit "gemini-flash-latest"]) [Val (lit "hi")]))
  = Exited 1
  /\ filter is_network
       (fst (@main ascii_case_mapping echo_sdk (Some [])
               (Val [lit "gemini-flash-latest"]) [Val (lit "hi")]))
     = [].
Proof.
  split.
  - apply (@missing_credential_is_fatal ascii_case_mapping echo_sdk None).
    now left.
  - apply (@missing_credential_is_fatal ascii_case_mapping echo_sdk (Some [])).
    now right.
Defined.

(** * Further properties of the code *)

(** ** The formatter, line by line *)

Lemma replace_bullets_app (marker a b : str) :
  replace_bullets marker (a ++ b)
  = replace_bullets marker a ++ replace_bullets marker b.
Proof. apply flat_map_app. Qed.

Lemma splitlines_from_cons (cur : str) (c : char) (s : str) :
  splitlines_from cur (c :: s)
  = if is_linebreak c then
      match s with
      | d :: s'' =>
          if (c =? 13)%N && (d =? 10)%N
          then (cur ++ [c; d]) :: splitlines_from [] s''
          else (cur ++ [c]) :: splitlines_from [] s
      | [] => [cur ++ [c]]
      end
    else splitlines_from (cur ++ [c]) s.
Proof. destruct s; reflexivity. Qed.

(** A boundary that the text after it cannot extend closes its line for
    good: what follows is split on its own. *)
Lemma splitlines_from_boundary (c : char) (b : str) :
  is_linebreak c = true ->
  c <> 13%N \/ starts_with [10%N] b = false ->
  forall a cur,
    splitlines_from cur (a ++ c :: b)
    = splitlines_from cur (a ++ [c]) ++ splitlines_from [] b.
Proof.
  intros Hc Hcr.
  assert (Hnocrlf : forall d b', b = d :: b' -> (c =? 13)%N && (d =? 10)%N = false).
  { intros d b' ->. destruct Hcr as [Hcr | Hcr].
    - apply N.eqb_neq in Hcr. now rewrite Hcr.
    - cbn [starts_with] in Hcr. rewrite andb_true_r, N.eqb_sym in Hcr.
      rewrite Hcr. apply andb_false_r. }
  assert (Hbase : forall cur,
             splitlines_from cur (c :: b)
             = splitlines_from cur [c] ++ splitlines_from [] b).
  { intros cur. rewrite !splitlines_from_cons, Hc.
    destruct b as [|d b']; [reflexivity|].
    now rewrite (Hnocrlf d b' eq_refl). }
  assert (G : forall n a, length a <= n -> forall cur,
             splitlines_from cur (a ++ c :: b)
             = splitlines_from cur (a ++ [c]) ++ splitlines_from [] b).
  { induction n as [|n IH]; intros [|x a] Hlen cur; cbn [length] in Hlen;
      try lia; try apply Hbase.
    change ((x :: a) ++ c :: b) with (x :: (a ++ c :: b)).
    change ((x :: a) ++ [c]) with (x :: (a ++ [c])).
    rewrite (splitlines_from_cons cur x (a ++ c :: b)),
      (splitlines_from_cons cur x (a ++ [c])).
    destruct (is_linebreak x) eqn:Hx.
    - destruct a as [|d a]; cbn [app].
      + destruct ((x =? 13)%N && (c =? 10)%N); [reflexivity|].
        now rewrite Hbase.
      + destruct ((x =? 13)%N && (d =? 10)%N); cbn [app]; f_equal.
        * apply IH. cbn [length] in *. lia.
        * apply (IH (d :: a)). cbn [length] in *. lia.
    - apply IH. lia. }
  intros a cur. now apply (G (length a)).
Qed.

Lemma starts_with_lf_replace_bullets (b : str) :
  starts_with [10%N] (replace_bullets bullet_marker b) = starts_with [10%N] b.
Proof.
  destruct b as [|d b]; [reflexivity|].
  cbn [replace_bullets flat_map].
  destruct (d =? bullet)%N eqn:E; [|reflexivity].
  apply N.eqb_eq in E. now subst d.
Qed.

(** X10: formatting is line by line: a text cut after a line boundary is
    formatted as its two parts, each on its own.  The cut must not fall
    inside a CR LF pair. *)
Theorem to_markdown_line_by_line (a b : str) (c : char) :
  is_linebreak c = true ->
  c <> 13%N \/ starts_with [10%N] b = false ->
  to_markdown (a ++ c :: b) = to_markdown (a ++ [c]) ++ to_markdown b.
Proof.
  intros Hc Hcr. rewrite !to_markdown_unfold.
  assert (Hcb : replace_bullets bullet_marker [c] = [c]).
  { cbn [replace_bullets flat_map]. rewrite app_nil_r.
    destruct (c =? bullet)%N eqn:E; [|reflexivity].
    apply N.eqb_eq in E. subst c. discriminate Hc. }
  change (c :: b) with ([c] ++ b).
  rewrite !replace_bullets_app, Hcb. unfold splitlines_keepends.
  change ([c] ++ replace_bullets bullet_marker b)
    with (c :: replace_bullets bullet_marker b).
  rewrite splitlines_from_boundary;
    [| assumption | now rewrite starts_with_lf_replace_bullets].
  now rewrite map_app, concat_app.
Qed.

(** X10 at a concrete text: two bulleted lines, cut after the newline. *)
Lemma to_markdown_line_by_line_witness :
  to_markdown ([bullet] ++ lit " a" ++ nl ++ [bullet] ++ lit " b")
  = to_markdown ([bullet] ++ lit " a" ++ nl) ++ to_markdown ([bullet] ++ lit " b").
Proof.
  apply (to_markdown_line_by_line ([bullet] ++ lit " a") ([bullet] ++ lit " b") 10%N).
  - reflexivity.
  - left. discriminate.
Defined.

Lemma map_skipn_prefixed (q : str) (ls : list str) :
  map (skipn (length q)) (map (app q) ls) = ls.
Proof.
  assert (Hq : forall l, skipn (length q) (q ++ l) = l)
    by (intros l; induction q as [|x q IHq]; [reflexivity | exact IHq]).
  induction ls as [|l ls IH]; [reflexivity|]. cbn [map]. now rewrite IH, Hq.
Qed.

(** X11: the quoting loses nothing: dropping the two code points of the
    marker from every line of the result and joining the lines gives the
    text with its bullets replaced, which is the text itself when it has
    no bullet; so two texts are formatted alike exactly when they are
    equal once their bullets are replaced. *)
Theorem to_markdown_unquote (t : str) :
  concat (map (skipn 2) (splitlines_keepends (to_markdown t)))
  = replace_bullets bullet_marker t
  /\ (~ In bullet t ->
      concat (map (skipn 2) (splitlines_keepends (to_markdown t))) = t)
  /\ (forall u,
        to_markdown t = to_markdown u
        <-> replace_bullets bullet_marker t = replace_bullets bullet_marker u).
Proof.
  assert (H : forall v, concat (map (skipn 2) (splitlines_keepends (to_markdown v)))
                        = replace_bullets bullet_marker v).
  { intros v. unfold to_markdown. rewrite str_replace_bullet, splitlines_indent_all.
    change 2 with (length quote_marker). rewrite map_skipn_prefixed.
    apply (concat_splitlines_from _ []). }
  split; [apply H|]. split.
  - intros Ht. rewrite H. now apply replace_bullets_without.
  - intros u. split.
    + intros E. rewrite <- (H t), <- (H u). now rewrite E.
    + intros E. rewrite !to_markdown_unfold. now rewrite E.
Qed.

(** X11 at a text without bullet, with a blank line and a CR LF. *)
Lemma to_markdown_unquote_witness :
  concat (map (skipn 2)
            (splitlines_keepends (to_markdown (lit "a" ++ [13; 10; 10]%N ++ lit "b"))))
  = lit "a" ++ [13; 10; 10]%N ++ lit "b".
Proof.
  destruct (to_markdown_unquote (lit "a" ++ [13; 10; 10]%N ++ lit "b")) as (_ & H & _).
  apply H. cbn. intros H'.
  repeat (destruct H' as [H' | H']; [discriminate H'|]). exact H'.
Defined.

Lemma length_replace_bullets (t : str) :
  length (replace_bullets bullet_marker t)
  = length t + 2 * count_occ N.eq_dec t bullet.
Proof.
  induction t as [|c t IH]; [reflexivity|].
  cbn [replace_bullets flat_map count_occ length]. rewrite length_app.
  fold (replace_bullets bullet_marker t). rewrite IH.
  destruct (N.eq_dec c bullet) as [-> | Hne].
  - rewrite N.eqb_refl. cbn [bullet_marker length]. cbn. lia.
  - apply N.eqb_neq in Hne. rewrite Hne. cbn [length]. lia.
Qed.

Lemma length_concat_prefixed (q : str) (ls : list str) :
  length (concat (map (app q) ls))
  = length (concat ls) + length q * length ls.
Proof.
  induction ls as [|l ls IH]; [cbn; lia|].
  cbn [map concat length]. rewrite !length_app, IH. lia.
Qed.

(** X12: the size and content of the result: it is empty exactly when the
    text is; it holds no bullet glyph; and it is longer than the text by
    two code points for every bullet and two for every line. *)
Theorem to_markdown_size (t : str) :
  (to_markdown t = [] <-> t = [])
  /\ ~ In bullet (to_markdown t)
  /\ length (to_markdown t)
     = length t + 2 * count_occ N.eq_dec t bullet
       + 2 * length (splitlines_keepends (to_markdown t)).
Proof.
  split; [|split].
  - split; [|now intros ->].
    intros E. destruct t as [|c t]; [reflexivity|]. exfalso.
    apply (to_markdown_lines_nonempty (c :: t)); [discriminate|].
    now rewrite E.
  - apply to_markdown_clean.
  - unfold to_markdown at 2. rewrite str_replace_bullet, splitlines_indent_all.
    rewrite length_map, to_markdown_unfold, length_concat_prefixed.
    unfold splitlines_keepends at 1. rewrite concat_splitlines_from.
    cbn [app]. rewrite length_replace_bullets.
    change (length quote_marker) with 2. reflexivity.
Qed.

(** ** The resolver and the start of the process *)

Lemma choose_model_listing_raises (e : exn) (preferred : str) :
  choose_model (Exc e) preferred
  = ([ListModels],
     if is_Exception e
     then Exc (RuntimeError (lit "Failed to list models: " ++ exn_str e))
     else Exc e).
Proof.
  unfold choose_model, try_except, bind, emit, raise. cbv beta iota.
  now destruct (is_Exception e).
Qed.

(** X1: a model [choose_model] returns is one the provider listed, and it
    is the preferred one or a member of the fallback list. *)
Theorem choose_model_returns_listed (listing : res (list str))
    (preferred m : str) (t : list event) :
  choose_model listing preferred = (t, Val m) ->
  exists available,
    listing = Val available
    /\ In m available
    /\ (m = preferred \/ In m fallback_candidates).
Proof.
  destruct listing as [available|e]; intros H.
  - rewrite choose_model_listed in H. exists available. split; [reflexivity|].
    destruct (str_in preferred available) eqn:Hp.
    + injection H as _ <-. apply str_in_In in Hp. auto.
    + destruct (scan_candidates fallback_candidates available) as [c|] eqn:Hscan;
        [|discriminate].
      injection H as _ <-.
      apply scan_candidates_Some in Hscan as (before & after & Hc & Hin & _).
      split; [assumption|]. right. rewrite Hc. apply in_or_app. right. now left.
  - rewrite choose_model_listing_raises in H.
    destruct (is_Exception e); discriminate H.
Qed.

(** X1 at a concrete listing, with the default preferred model missing. *)
Lemma choose_model_returns_listed_witness :
  exists available,
    Val [lit "x"; lit "gemini-2.5-flash-lite"] = Val available
    /\ In (lit "gemini-2.5-flash-lite") available
    /\ (lit "gemini-2.5-flash-lite" = default_preferred
        \/ In (lit "gemini-2.5-flash-lite") fallback_candidates).
Proof.
  apply (choose_model_returns_listed
           (Val [lit "x"; lit "gemini-2.5-flash-lite"]) default_preferred
           (lit "gemini-2.5-flash-lite") [ListModels]).
  reflexivity.
Defined.

Section ProcessProperties.

Context {unicode : CaseMapping} {sdk : GenAI}.

(** [main] when no model is chosen: only a [RuntimeError] is reported. *)
Lemma main_selection_fails (key : str) (listing : res (list str))
    (inputs : list (res str)) (t1 : list event) (e : exn) :
  key <> [] ->
  choose_model listing default_preferred = (t1, Exc e) ->
  main (Some key) listing inputs
  = if is_RuntimeError e
    then (Configure key :: t1
            ++ [PrintErr (lit "Model selection error: " ++ exn_str e)],
          Exc (SystemExit 1))
    else (Configure key :: t1, Exc e).
Proof.
  intros Hkey He. destruct key as [|k key]; [contradiction|].
  unfold main. change (lit "gemini-flash-latest") with default_preferred.
  rewrite He. unfold configure_genai, try_except, bind, emit, sys_exit, raise.
  cbv beta iota. destruct (is_RuntimeError e); cbn [app];
    rewrite ?app_nil_r; reflexivity.
Qed.

(** X2: when the listing of models fails with an error, the process
    reports "Model selection error: Failed to list models: ..." on stderr
    and exits with code 1 without starting the loop; an interrupt during
    the listing is not caught and leaves [main]. *)
Theorem listing_failure_is_fatal (key : str) (e : exn)
    (inputs : list (res str)) :
  key <> [] ->
  main (Some key) (Exc e) inputs
  = if is_Exception e
    then ([Configure key; ListModels;
           PrintErr (lit "Model selection error: "
                       ++ lit "Failed to list models: " ++ exn_str e)],
          Exc (SystemExit 1))
    else ([Configure key; ListModels], Exc e).
Proof.
  intros Hkey.
  pose proof (choose_model_listing_raises e default_preferred) as He.
  destruct (is_Exception e) eqn:Hexc;
    rewrite (main_selection_fails _ _ inputs _ _ Hkey He).
  - reflexivity.
  - now destruct e.
Qed.

(** X3: when the provider lists no acceptable model, the process reports
    on stderr a message that contains every listed name and exits with
    code 1; the loop is not started: nothing is printed, prompted or
    sent. *)
Theorem unavailable_model_is_fatal (key : str) (available : list str)
    (inputs : list (res str)) :
  key <> [] ->
  (forall c, In c fallback_candidates -> ~ In c available) ->
  exists msg,
    main (Some key) (Val available) inputs
    = ([Configure key; ListModels;
        PrintErr (lit "Model selection error: " ++ msg)],
       Exc (SystemExit 1))
    /\ forall name, In name available -> contains msg name.
Proof.
  intros Hkey Hnone.
  assert (Hp : str_in default_preferred available = false).
  { apply str_in_not_In, Hnone. right; right; left; reflexivity. }
  exists (not_available_message default_preferred available). split.
  - rewrite (main_selection_fails key (Val available) inputs [ListModels]
               (RuntimeError (not_available_message default_preferred available))
               Hkey); [reflexivity|].
    rewrite choose_model_listed, Hp.
    now rewrite (scan_candidates_none _ _ Hnone).
  - intros name Hname. unfold not_available_message.
    apply contains_app_r. now apply join_contains.
Qed.

End ProcessProperties.

(** X2 at concrete failures: a network error, and an interrupt. *)
Lemma listing_failure_is_fatal_witness :
  exit_status
    (snd (@main ascii_case_mapping echo_sdk (Some (lit "k"))
            (Exc (OtherError (lit "timeout"))) [Val (lit "hi")]))
  = Exited 1
  /\ snd (@main ascii_case_mapping echo_sdk (Some (lit "k"))
            (Exc KeyboardInterrupt) [Val (lit "hi")])
     = Exc KeyboardInterrupt.
Proof.
  split.
  - rewrite (@listing_failure_is_fatal ascii_case_mapping echo_sdk (lit "k")
               (OtherError (lit "timeout")) [Val (lit "hi")]);
      [reflexivity | discriminate].
  - rewrite (@listing_failure_is_fatal ascii_case_mapping echo_sdk (lit "k")
               KeyboardInterrupt [Val (lit "hi")]);
      [reflexivity | discriminate].
Defined.

(** X3 at a concrete listing of two models the program does not know. *)
Lemma unavailable_model_is_fatal_witness :
  exists msg,
    @main ascii_case_mapping echo_sdk (Some (lit "k"))
      (Val [lit "alpha"; lit "beta"]) [Val (lit "hi")]
    = ([Configure (lit "k"); ListModels;
        PrintErr (lit "Model selection error: " ++ msg)],
       Exc (SystemExit 1))
    /\ forall name, In name [lit "alpha"; lit "beta"] -> contains msg name.
Proof.
  apply (@unavailable_model_is_fatal ascii_case_mapping echo_sdk).
  - discriminate.
  - intros c [<- | [<- | [<- | []]]] [E | [E | []]]; discriminate E.
Defined.

(** ** Stripping *)

Lemma lstrip_head (s s' : str) (c : char) :
  lstrip s = c :: s' -> is_space c = false.
Proof.
  induction s as [|d s IH]; cbn [lstrip]; [discriminate|].
  destruct (is_space d) eqn:Hd; [exact IH|].
  intros [= <- _]. exact Hd.
Qed.

Lemma lstrip_idem (s : str) : lstrip (lstrip s) = lstrip s.
Proof.
  induction s as [|d s IH]; [reflexivity|]. cbn [lstrip].
  destruct (is_space d) eqn:Hd; [exact IH|]. cbn [lstrip]. now rewrite Hd.
Qed.

Lemma lstrip_before_nonspace (a b : str) (c : char) :
  is_space c = false -> lstrip (a ++ c :: b) = lstrip a ++ c :: b.
Proof.
  intros Hc. induction a as [|d a IH]; cbn [app lstrip].
  - now rewrite Hc.
  - destruct (is_space d); [exact IH | reflexivity].
Qed.

Lemma rstrip_cons_nonspace (s : str) (c : char) :
  is_space c = false -> rstrip (c :: s) = c :: rstrip s.
Proof.
  intros Hc. unfold rstrip. cbn [rev].
  rewrite (lstrip_before_nonspace (rev s) [] c Hc), rev_app_distr.
  reflexivity.
Qed.

Lemma rstrip_idem (s : str) : rstrip (rstrip s) = rstrip s.
Proof. unfold rstrip. now rewrite rev_involutive, lstrip_idem. Qed.

(** A stripped text has nothing left to strip. *)
Lemma strip_idem (s : str) : strip (strip s) = strip s.
Proof.
  unfold strip. destruct (lstrip s) as [|c s'] eqn:Hs; [reflexivity|].
  pose proof (lstrip_head _ _ _ Hs) as Hc.
  rewrite (rstrip_cons_nonspace s' c Hc). cbn [lstrip]. rewrite Hc.
  now rewrite (rstrip_cons_nonspace _ c Hc), rstrip_idem.
Qed.

(** ** Every pass through the loop *)

Section RunProperties.

Context {unicode : CaseMapping} {sdk : GenAI}.

(** The ways through [loop_body]. *)
Ltac loop_body_cases chat i :=
  unfold loop_body, dispatch;
  destruct i as [?line|?e];
  [ destruct (strip line) as [|?c ?q] eqn:?Hstrip;
    [ | destruct (str_in (str_lower (c :: q)) [lit "quit"; lit "exit"]) eqn:?Hexit;
        [ | destruct (send_message chat (c :: q)) as [[?response|?e] ?chat1] eqn:?Hsend;
            [ destruct (text response) as [?reply|?e];
              [ | destruct (is_Exception e) eqn:?Hexc ]
            | destruct (is_Exception e) eqn:?Hexc ] ] ]
  | destruct (is_interrupt_or_eof e) eqn:?Hint ].

Lemma is_exit_command_empty : is_exit_command [] = false.
Proof. now rewrite is_exit_command_ascii. Qed.

(** What one pass sends: nothing, or the stripped line, which then is
    neither empty nor an exit command. *)
Lemma loop_body_sends (chat : ChatSession) (i : res str) :
  sends (fst (loop_body chat i)) = []
  \/ exists line,
       i = Val line /\ strip line <> []
       /\ is_exit_command (strip line) = false
       /\ sends (fst (loop_body chat i)) = [strip line].
Proof.
  loop_body_cases chat i; try (left; reflexivity);
    right; exists line; rewrite Hstrip;
    (repeat split; [discriminate | exact Hexit]).
Qed.

Lemma loop_body_network (chat : ChatSession) (i : res str) :
  filter is_network (fst (loop_body chat i))
  = map Send (sends (fst (loop_body chat i))).
Proof. loop_body_cases chat i; reflexivity. Qed.

Lemma loop_body_break (chat : ChatSession) (i : res str) (t : list event) :
  loop_body chat i = (t, Break) ->
  exists farewell,
    t = [Prompt question_prompt; Print farewell]
    /\ (farewell = goodbye \/ farewell = nl ++ goodbye).
Proof.
  loop_body_cases chat i; intros [= <-]; eauto.
Qed.

Lemma loop_body_continue (chat chat' : ChatSession) (i : res str)
    (t : list event) :
  loop_body chat i = (t, Continue chat') ->
  chat' = session_after chat (sends t).
Proof.
  loop_body_cases chat i; intros [= <- <-]; try reflexivity;
    cbn [sends session_after fold_left]; now rewrite Hsend.
Qed.

Lemma while_true_cons (chat : ChatSession) (i : res str) (rest : list (res str)) :
  while_true chat (i :: rest)
  = match loop_body chat i with
    | (t, Continue chat') => let (t', r) := while_true chat' rest in (t ++ t', r)
    | (t, Break) => (t, Val tt)
    | (t, Propagate e) => (t, Exc e)
    end.
Proof. reflexivity. Qed.

Lemma while_true_sends (inputs : list (res str)) :
  forall chat q,
    In q (sends (fst (while_true chat inputs))) ->
    q <> [] /\ strip q = q /\ is_exit_command q = false.
Proof.
  assert (Hbody : forall chat i q,
             In q (sends (fst (loop_body chat i))) ->
             q <> [] /\ strip q = q /\ is_exit_command q = false).
  { intros chat i q Hq.
    destruct (loop_body_sends chat i) as [E | (line & _ & Hne & Hexit & E)];
      rewrite E in Hq; [destruct Hq|].
    destruct Hq as [<- | []]. repeat split; try assumption. apply strip_idem. }
  induction inputs as [|i inputs IH]; intros chat q.
  - intros []. 
  - rewrite while_true_cons. specialize (Hbody chat i q).
    destruct (loop_body chat i) as [t [chat1| |e]]; cbn [fst] in *; try exact Hbody.
    specialize (IH chat1 q). destruct (while_true chat1 inputs) as [t' r].
    cbn [fst] in *. rewrite sends_app. intros H.
    apply in_app_or in H as [H | H]; auto.
Qed.

Lemma while_true_network (inputs : list (res str)) :
  forall chat,
    filter is_network (fst (while_true chat inputs))
    = map Send (sends (fst (while_true chat inputs))).
Proof.
  induction inputs as [|i inputs IH]; intros chat; [reflexivity|].
  rewrite while_true_cons. pose proof (loop_body_network chat i) as Hbody.
  destruct (loop_body chat i) as [t [chat1| |e]]; cbn [fst] in *; try exact Hbody.
  specialize (IH chat1). destruct (while_true chat1 inputs) as [t' r].
  cbn [fst] in *. now rewrite filter_app, sends_app, map_app, Hbody, IH.
Qed.

Lemma while_true_normal (inputs : list (res str)) :
  forall chat t,
    while_true chat inputs = (t, Val tt) ->
    exists t0 farewell,
      t = t0 ++ [Prompt question_prompt; Print farewell]
      /\ (farewell = goodbye \/ farewell = nl ++ goodbye).
Proof.
  induction inputs as [|i inputs IH]; intros chat t.
  - intros [= <-]. exists [], (nl ++ goodbye). auto.
  - rewrite while_true_cons.
    destruct (loop_body chat i) as [t1 [chat1| |e]] eqn:Hbody.
    + specialize (IH chat1). destruct (while_true chat1 inputs) as [t' r].
      intros [= <- ->]. destruct (IH t' eq_refl) as (t0 & fw & -> & Hfw).
      exists (t1 ++ t0), fw. now rewrite app_assoc.
    + intros [= <-]. destruct (loop_body_break _ _ _ Hbody) as (fw & -> & Hfw).
      exists [], fw. auto.
    + discriminate.
Qed.

Lemma feed_session (inputs : list (res str)) :
  forall chat chat' t,
    feed chat inputs = (t, Continue chat') ->
    chat' = session_after chat (sends t).
Proof.
  induction inputs as [|i inputs IH]; intros chat chat' t.
  - intros [= <- <-]. reflexivity.
  - cbn [feed]. destruct (loop_body chat i) as [t1 [chat1| |e]] eqn:Hbody;
      try discriminate.
    destruct (feed chat1 inputs) as [t' c] eqn:Hfeed. intros [= <- ->].
    rewrite sends_app. unfold session_after. rewrite fold_left_app.
    fold (session_after chat (sends t1)).
    rewrite <- (loop_body_continue _ _ _ _ Hbody). now apply IH.
Qed.

Lemma choose_model_raises (listing : res (list str)) (preferred : str)
    (t : list event) (e : exn) :
  choose_model listing preferred = (t, Exc e) ->
  is_RuntimeError e = true \/ is_Exception e = false.
Proof.
  destruct listing as [available|e0].
  - rewrite choose_model_listed.
    destruct (str_in preferred available); [discriminate|].
    destruct (scan_candidates fallback_candidates available); [discriminate|].
    intros [= _ <-]. now left.
  - rewrite choose_model_listing_raises.
    destruct (is_Exception e0) eqn:He0; intros [= _ <-]; auto.
Qed.

(** The three ways [main] goes: no credential; no model; the loop. *)
Lemma main_shape (api_key : option str) (listing : res (list str))
    (inputs : list (res str)) :
  ((api_key = None \/ api_key = Some [])
   /\ main api_key listing inputs
      = ([PrintErr (lit "Configuration error: " ++ no_api_key_message)],
         Exc (SystemExit 1)))
  \/ (exists key e,
         api_key = Some key /\ key <> []
         /\ (is_RuntimeError e = true \/ is_Exception e = false)
         /\ main api_key listing inputs
            = if is_RuntimeError e
              then ([Configure key; ListModels;
                     PrintErr (lit "Model selection error: " ++ exn_str e)],
                    Exc (SystemExit 1))
              else ([Configure key; ListModels], Exc e))
  \/ (exists key m t r,
         api_key = Some key /\ key <> []
         /\ choose_model listing default_preferred = ([ListModels], Val m)
         /\ while_true (start_chat (GenerativeModel m system_instruction)) inputs
            = (t, r)
         /\ main api_key listing inputs
            = match r with
              | Val _ => (Configure key :: ListModels :: header ++ t, Val tt)
              | Exc e =>
                  if is_Exception e
                  then (Configure key :: ListModels :: header ++ t
                          ++ [PrintErr (lit "Unexpected error: " ++ exn_str e)],
                        Exc (SystemExit 1))
                  else (Configure key :: ListModels :: header ++ t, Exc e)
              end).
Proof.
  destruct api_key as [[|k key]|]; [left; auto | | left; auto].
  assert (Hkey : k :: key <> []) by discriminate. right.
  destruct (choose_model listing default_preferred) as [t1 [m|e]] eqn:Hm;
    pose proof (choose_model_trace _ _ _ _ Hm) as ->.
  - right.
    destruct (while_true (start_chat (GenerativeModel m system_instruction)) inputs)
      as [t r] eqn:Hrun.
    exists (k :: key), m, t, r. repeat split; try assumption.
    rewrite (main_runs_loop _ _ inputs _ _ Hkey Hm), Hrun. reflexivity.
  - left. exists (k :: key), e. repeat split; try assumption.
    + exact (choose_model_raises _ _ _ _ Hm).
    + rewrite (main_selection_fails _ _ inputs _ _ Hkey Hm). reflexivity.
Qed.

(** X4: no error escapes [main]: when [main] ends with an exception it is
    never an [Exception]; it is the [SystemExit] of [sys.exit(1)], or an
    exception outside [Exception] (an interrupt) that a call let
    through. *)
Theorem no_error_escapes_main (api_key : option str) (listing : res (list str))
    (inputs : list (res str)) (e : exn) :
  snd (main api_key listing inputs) = Exc e -> is_Exception e = false.
Proof.
  destruct (main_shape api_key listing inputs)
    as [[_ E] | [(key & e1 & _ & _ & He1 & E) | (key & m & t & r & _ & _ & _ & _ & E)]];
    rewrite E.
  - intros [= <-]. reflexivity.
  - destruct (is_RuntimeError e1) eqn:Hr; cbn [snd]; intros [= <-];
      [reflexivity|]. destruct He1; congruence.
  - destruct r as [[]|e']; cbn [snd]; [discriminate|].
    destruct (is_Exception e') eqn:He'; cbn [snd]; intros [= <-];
      [reflexivity | assumption].
Qed.

(** X5: [main] returns normally only through the farewell: when it does,
    the last thing the process did was to prompt and print the farewell
    message. *)
Theorem normal_return_after_farewell (api_key : option str)
    (listing : res (list str)) (inputs : list (res str)) :
  snd (main api_key listing inputs) = Val tt ->
  exists t farewell,
    fst (main api_key listing inputs)
    = t ++ [Prompt question_prompt; Print farewell]
    /\ (farewell = goodbye \/ farewell = nl ++ goodbye).
Proof.
  destruct (main_shape api_key listing inputs)
    as [[_ E] | [(key & e1 & _ & _ & _ & E) | (key & m & t & r & _ & _ & _ & Hrun & E)]];
    rewrite E.
  - discriminate.
  - destruct (is_RuntimeError e1); discriminate.
  - destruct r as [[]|e']; [|destruct (is_Exception e'); discriminate].
    intros _. destruct (while_true_normal _ _ _ Hrun) as (t0 & fw & -> & Hfw).
    exists (Configure key :: ListModels :: header ++ t0), fw.
    split; [|assumption]. cbn [fst app]. now rewrite app_assoc.
Qed.

Lemma sends_main (api_key : option str) (listing : res (list str))
    (inputs : list (res str)) :
  sends (fst (main api_key listing inputs)) = []
  \/ exists m,
       choose_model listing default_preferred = ([ListModels], Val m)
       /\ sends (fst (main api_key listing inputs))
          = sends (fst (while_true
                          (start_chat (GenerativeModel m system_instruction))
                          inputs)).
Proof.
  destruct (main_shape api_key listing inputs)
    as [[_ E] | [(key & e1 & _ & _ & _ & E) | (key & m & t & r & _ & _ & Hm & Hrun & E)]];
    rewrite E.
  - now left.
  - left. now destruct (is_RuntimeError e1).
  - right. exists m. split; [assumption|]. rewrite Hrun. cbn [fst].
    destruct r as [[]|e']; [reflexivity|].
    destruct (is_Exception e'); [|reflexivity].
    cbn [fst]. change (Configure key :: ListModels :: header ++ t ++ ?x)
      with ((Configure key :: ListModels :: header) ++ t ++ x).
    rewrite !sends_app. cbn [sends]. now rewrite app_nil_r.
Qed.

(** X6: whatever the inputs and the provider, a text the process sends is
    not empty, has no white space left at either end (stripping it
    changes nothing), and is not an exit command. *)
Theorem sent_texts_are_questions (api_key : option str)
    (listing : res (list str)) (inputs : list (res str)) (q : str) :
  In q (sends (fst (main api_key listing inputs))) ->
  q <> [] /\ strip q = q /\ is_exit_command q = false.
Proof.
  destruct (sends_main api_key listing inputs) as [E | (m & _ & E)];
    rewrite E; [intros [] | apply while_true_sends].
Qed.

(** X9: with a credential set, the network is used for exactly one
    listing of models, first, and then for the sends, and for nothing
    else; and a send is made only when the listing gave a model. *)
Theorem network_use_of_main (key : str) (listing : res (list str))
    (inputs : list (res str)) :
  key <> [] ->
  filter is_network (fst (main (Some key) listing inputs))
  = ListModels :: map Send (sends (fst (main (Some key) listing inputs)))
  /\ (sends (fst (main (Some key) listing inputs)) <> [] ->
      exists m, choose_model listing default_preferred = ([ListModels], Val m)).
Proof.
  intros Hkey. split.
  - destruct (main_shape (Some key) listing inputs)
      as [[Hnokey E] | [(key' & e1 & _ & _ & _ & E)
                       | (key' & m & t & r & _ & _ & _ & Hrun & E)]];
      rewrite E.
    + exfalso. destruct Hnokey as [H | H]; [discriminate H|].
      injection H as ->. now apply Hkey.
    + now destruct (is_RuntimeError e1).
    + pose proof (while_true_network inputs
                    (start_chat (GenerativeModel m system_instruction))) as Hnet.
      rewrite Hrun in Hnet. cbn [fst] in Hnet.
      destruct r as [[]|e']; [|destruct (is_Exception e')]; cbn [fst];
        change (Configure key' :: ListModels :: header ++ ?x)
          with ([Configure key'; ListModels] ++ header ++ x);
        rewrite ?filter_app, ?sends_app, Hnet; cbn [filter is_network sends app];
        rewrite ?app_nil_r; reflexivity.
  - intros Hsends. destruct (sends_main (Some key) listing inputs) as [E | (m & Hm & _)];
      [contradiction | eauto].
Qed.

Lemma questions_cons (line : str) (lines : list str) :
  questions (line :: lines)
  = match strip line with
    | [] => questions lines
    | _ :: _ =>
        if is_exit_command (strip line) then []
        else strip line :: questions lines
    end.
Proof.
  unfold questions. cbn [map before_exit].
  destruct (strip line) as [|c q].
  - rewrite is_exit_command_empty. reflexivity.
  - destruct (is_exit_command (c :: q)); reflexivity.
Qed.

Lemma dispatch_never_breaks (chat : ChatSession) (q : str) (t : list event) :
  dispatch chat q <> (t, Break).
Proof.
  unfold dispatch.
  destruct (send_message chat q) as [[response|e] chat1].
  - destruct (text response) as [reply|e]; [discriminate|].
    destruct (is_Exception e); discriminate.
  - destruct (is_Exception e); discriminate.
Qed.

Lemma while_true_questions (lines : list str) :
  forall chat t r,
    while_true chat (map Val lines) = (t, r) ->
    (exists k, sends t = firstn k (questions lines))
    /\ (r = Val tt -> sends t = questions lines).
Proof.
  induction lines as [|line lines IH]; intros chat t r.
  - intros [= <- <-]. split; [now exists 0 | reflexivity].
  - cbn [map]. rewrite while_true_cons, questions_cons.
    destruct (strip line) as [|c q] eqn:Hs.
    + rewrite (loop_body_empty chat line Hs).
      destruct (while_true chat (map Val lines)) as [t' r'] eqn:Hrun.
      intros [= <- <-]. exact (IH _ _ _ Hrun).
    + assert (Hne : strip line <> []) by (rewrite Hs; discriminate).
      destruct (is_exit_command (c :: q)) eqn:Hexit; rewrite <- Hs in Hexit.
      * rewrite (loop_body_exit chat line Hne Hexit). intros [= <- <-].
        split; [now exists 0 | reflexivity].
      * rewrite (loop_body_question chat line Hne Hexit), Hs.
        destruct (dispatch_sends chat (c :: q)) as (t' & c' & Hd & Hs').
        pose proof (dispatch_never_breaks chat (c :: q) (Send (c :: q) :: t')) as Hnb.
        rewrite Hd in *. destruct c' as [chat1| |e]; [| now contradiction Hnb |].
        -- destruct (while_true chat1 (map Val lines)) as [t'' r'] eqn:Hrun.
           intros [= <- <-]. destruct (IH _ _ _ Hrun) as [[k Hk] Hall].
           cbn [app sends]. rewrite sends_app, Hs'. cbn [app]. split.
           ++ exists (S k). cbn [firstn]. now rewrite Hk.
           ++ intros Hr. now rewrite (Hall Hr).
        -- intros [= <- <-]. cbn [sends]. rewrite Hs'. split.
           ++ now exists 1.
           ++ discriminate.
Qed.

(** X7: over a whole run on typed lines, the texts sent are, in order,
    the stripped non-empty lines that come before the first exit
    command: all of them when the loop ends normally, and the first few
    of them when an exception ends it early. *)
Theorem sends_of_a_run (model_name : str) (lines : list str)
    (t : list event) (r : res unit) :
  run_chat_loop model_name (map Val lines) = (t, r) ->
  (exists k, sends t = firstn k (questions lines))
  /\ (r = Val tt -> sends t = questions lines).
Proof.
  unfold run_chat_loop, bind, emit. cbv beta iota.
  destruct (while_true (start_chat (GenerativeModel model_name system_instruction))
              (map Val lines)) as [t' r'] eqn:Hrun.
  intros [= <- <-]. exact (while_true_questions _ _ _ _ Hrun).
Qed.

(** X8: an error of [input] itself (neither the end of input nor an
    interrupt) ends the loop and the process: it is reported on stderr as
    an unexpected error, without farewell, and the exit code is 1. *)
Theorem input_error_is_fatal (key : str) (listing : res (list str))
    (t1 : list event) (m : str) (pre rest : list (res str))
    (tpre : list event) (chat' : ChatSession) (e : exn) :
  key <> [] ->
  choose_model listing default_preferred = (t1, Val m) ->
  feed (start_chat (GenerativeModel m system_instruction)) pre
  = (tpre, Continue chat') ->
  is_Exception e = true -> is_interrupt_or_eof e = false ->
  main (Some key) listing (pre ++ Exc e :: rest)
  = (Configure key :: t1 ++ header ++ tpre
       ++ [Prompt question_prompt;
           PrintErr (lit "Unexpected error: " ++ exn_str e)],
     Exc (SystemExit 1)).
Proof.
  intros Hkey Hm Hfeed He Hint.
  rewrite (main_after_feed _ _ _ _ _ _ _ _ Hkey Hm Hfeed).
  cbn [while_true loop_body]. rewrite Hint, He. reflexivity.
Qed.

(** X13: the process has one session, and only the sends change it: after
    any inputs that leave the loop running, the session it goes on with is
    the first session after the texts sent so far, in their order. *)
Theorem session_is_threaded (chat : ChatSession) (pre rest : list (res str))
    (t : list event) (chat' : ChatSession) :
  feed chat pre = (t, Continue chat') ->
  chat' = session_after chat (sends t)
  /\ while_true chat (pre ++ rest)
     = let (t', r) := while_true (session_after chat (sends t)) rest in
       (t ++ t', r).
Proof.
  intros Hfeed. pose proof (feed_session _ _ _ _ Hfeed) as Hs.
  split; [assumption|]. rewrite <- Hs. exact (while_true_feed _ _ _ _ _ Hfeed).
Qed.

End RunProperties.

(** *** The further properties on the scripted provider *)

(** X4 at the run in which [input] fails: the error does not leave
    [main], which ends in [SystemExit 1]. *)
Lemma no_error_escapes_main_witness :
  snd broken_input_run = Exc (SystemExit 1)
  /\ is_Exception (SystemExit 1) = false.
Proof.
  split; [reflexivity|].
  apply (@no_error_escapes_main ascii_case_mapping echo_sdk (Some (lit "k"))
           (Val [lit "gemini-flash-latest"])
           [Val (lit "hi"); Exc (OtherError (lit "bad byte")); Val (lit "more")]
           (SystemExit 1)).
  reflexivity.
Defined.

(** X5 at a run ended by ["quit"]. *)
Lemma normal_return_after_farewell_witness :
  exists t farewell,
    fst (@main ascii_case_mapping echo_sdk (Some (lit "k"))
           (Val [lit "gemini-flash-latest"]) [Val (lit "hi"); Val (lit "quit")])
    = t ++ [Prompt question_prompt; Print farewell]
    /\ (farewell = goodbye \/ farewell = nl ++ goodbye).
Proof.
  apply (@normal_return_after_farewell ascii_case_mapping echo_sdk).
  reflexivity.
Defined.

(** X6 at a run that sends one question typed with spaces around it. *)
Lemma sent_texts_are_questions_witness :
  lit "hi" <> []
  /\ strip (lit "hi") = lit "hi"
  /\ @is_exit_command ascii_case_mapping (lit "hi") = false.
Proof.
  apply (@sent_texts_are_questions ascii_case_mapping echo_sdk (Some (lit "k"))
           (Val [lit "gemini-flash-latest"]) [Val (lit "  hi "); Val (lit "quit")]).
  left. reflexivity.
Defined.

(** X7 at a run with an empty line, a failed send and an exit command
    followed by one more line. *)
Lemma sends_of_a_run_witness :
  sends (fst (@run_chat_loop ascii_case_mapping echo_sdk (lit "m")
                (map Val [lit " hi "; lit "  "; lit "boom"; lit "Exit"; lit "x"])))
  = [lit "hi"; lit "boom"]
  /\ @questions ascii_case_mapping
       [lit " hi "; lit "  "; lit "boom"; lit "Exit"; lit "x"]
     = [lit "hi"; lit "boom"].
Proof.
  split; [|reflexivity].
  destruct (@sends_of_a_run ascii_case_mapping echo_sdk (lit "m")
              [lit " hi "; lit "  "; lit "boom"; lit "Exit"; lit "x"]
              (fst (@run_chat_loop ascii_case_mapping echo_sdk (lit "m")
                      (map Val [lit " hi "; lit "  "; lit "boom"; lit "Exit"; lit "x"])))
              (Val tt) eq_refl) as [_ H].
  rewrite (H eq_refl). reflexivity.
Defined.

(** X8 at the run in which [input] fails after one question. *)
Lemma input_error_is_fatal_witness :
  exit_status (snd broken_input_run) = Exited 1
  /\ existsb is_farewell (fst broken_input_run) = false.
Proof.
  assert (E : broken_input_run
              = (Configure (lit "k") :: [ListModels] ++ header
                   ++ fst (@feed ascii_case_mapping echo_sdk [] [Val (lit "hi")])
                   ++ [Prompt question_prompt;
                       PrintErr (lit "Unexpected error: " ++ lit "bad byte")],
                 Exc (SystemExit 1))).
  { apply (@input_error_is_fatal ascii_case_mapping echo_sdk (lit "k")
             (Val [lit "gemini-flash-latest"]) [ListModels] default_preferred
             [Val (lit "hi")] [Val (lit "more")]
             (fst (@feed ascii_case_mapping echo_sdk [] [Val (lit "hi")]))
             [lit "hi"] (OtherError (lit "bad byte")));
      first [discriminate | reflexivity]. }
  rewrite E. split; reflexivity.
Defined.

(** X9 at a run with an answered and a failed send. *)
Lemma network_use_of_main_witness :
  filter is_network
    (fst (@main ascii_case_mapping echo_sdk (Some (lit "k"))
            (Val [lit "gemini-flash-latest"])
            [Val (lit "hi"); Val (lit "boom"); Val (lit "quit")]))
  = [ListModels; Send (lit "hi"); Send (lit "boom")].
Proof.
  destruct (@network_use_of_main ascii_case_mapping echo_sdk (lit "k")
              (Val [lit "gemini-flash-latest"])
              [Val (lit "hi"); Val (lit "boom"); Val (lit "quit")])
    as [H _]; [discriminate|].
  rewrite H. reflexivity.
Defined.

(** X13 on the scripted provider, whose session is the list of the texts
    it accepted: after an answered, a failed and another answered send. *)
Lemma session_is_threaded_witness :
  @session_after echo_sdk [] [lit "hi"; lit "boom"; lit "why"]
  = [lit "hi"; lit "why"].
Proof.
  destruct (@session_is_threaded ascii_case_mapping echo_sdk []
              [Val (lit "hi"); Val (lit "boom"); Val (lit " "); Val (lit "why")] []
              (fst (@feed ascii_case_mapping echo_sdk []
                      [Val (lit "hi"); Val (lit "boom"); Val (lit " "); Val (lit "why")]))
              [lit "hi"; lit "why"] eq_refl) as [H _].
  exact (eq_sym H).
Defined.
